(** * Plat-Map-Crawler: a shallow embedding of [plat_map_crawler.py]

    The development follows the source file top-down:
    - text primitives ([re.findall] for the two fixed patterns, [int],
      the [:02d] format, [str.split], [sorted], [set]);
    - [extract_map_references];
    - the world the crawler acts on (document store, origin server, the
      trace of requests and sleeps) and [download_pdf];
    - [crawl_plat_maps], [systematic_discovery], [hybrid_crawl_community];
    - the properties.

    Text is modelled as [string] (a list of 8-bit characters); the classes
    [\d] and [\w] are the ASCII ones, every character above 127 counts as
    a non-word character.  The Python sets of map IDs are [gset]s
    (iterated in the order of [elements], Python leaving the order open);
    the per-page set of numerals is a duplicate-free list, whose order
    stands for the interpreter's and is relied on by no statement. *)

From Stdlib Require Import ZArith List Bool Ascii String Sorted OrdersEx Lia.
From stdpp Require Import base gmap sets strings list.

Local Open Scope string_scope.
Local Open Scope Z_scope.

(** ** Characters and the two regular expressions *)

Module Text.

Definition code (c : ascii) : N := N_of_ascii c.

(** [\d], on ASCII text: the ten characters [0]..[9] *)
Definition is_digit (c : ascii) : bool :=
  (48 <=? code c)%N && (code c <=? 57)%N.

(** [\w] : [[A-Za-z0-9_]] *)
Definition is_word (c : ascii) : bool :=
  is_digit c
  || ((65 <=? code c)%N && (code c <=? 90)%N)
  || ((97 <=? code c)%N && (code c <=? 122)%N)
  || (code c =? 95)%N.

Definition digit_value (c : ascii) : Z := Z.of_N (code c) - 48.

Definition digit_char (d : Z) : ascii := ascii_of_N (Z.to_N (48 + d)).

(** The closing [\b] of both patterns: the match ends in a digit, so the
    boundary holds at the end of the text or before a non-word character. *)
Definition end_boundary (rest : string) : bool :=
  match rest with
  | EmptyString => true
  | String c _ => negb (is_word c)
  end.

(** One attempt of [\b(\d{2})\b] at the current position.  [prev_word]
    tells whether the preceding character exists and is a word character;
    the pattern starts with a digit, so the opening [\b] holds exactly
    when it is not. *)
Definition match_two_digit (prev_word : bool) (s : string) : option string :=
  match s with
  | String a (String b rest) =>
      if negb prev_word && is_digit a && is_digit b && end_boundary rest
      then Some (String a (String b EmptyString))
      else None
  | _ => None
  end.

(** One attempt of [\b(0\d{2}-\d{2})\b] at the current position. *)
Definition match_full_format (prev_word : bool) (s : string) : option string :=
  match s with
  | String z (String a (String b (String h (String c (String d rest))))) =>
      if negb prev_word && Ascii.eqb z "0" && is_digit a && is_digit b
         && Ascii.eqb h "-" && is_digit c && is_digit d && end_boundary rest
      then Some (String z (String a (String b (String h (String c (String d EmptyString))))))
      else None
  | _ => None
  end.

(** [re.findall] for a pattern whose matches are never empty: scan left
    to right, report a match and resume after its last character,
    otherwise move one character on.  [skip] counts the characters of the
    last match that are still to be stepped over. *)
Fixpoint findall_from (match_at : bool -> string -> option string)
    (skip : nat) (prev_word : bool) (s : string) : list string :=
  match s with
  | EmptyString => []
  | String c s' =>
      match skip with
      | S k => findall_from match_at k (is_word c) s'
      | O =>
          match match_at prev_word s with
          | Some m => m :: findall_from match_at (Nat.pred (String.length m)) (is_word c) s'
          | None => findall_from match_at O (is_word c) s'
          end
      end
  end.

Definition findall (match_at : bool -> string -> option string) (s : string) : list string :=
  findall_from match_at O false s.

(** ** [int], [:02d], [split], [startswith] *)

Fixpoint digits_value (acc : Z) (s : string) : option Z :=
  match s with
  | EmptyString => Some acc
  | String c s' =>
      if is_digit c then digits_value (10 * acc + digit_value c) s' else None
  end.

(** [int(s)] on a plain run of ASCII digits; [None] stands for
    [ValueError].  (Python also accepts surrounding blanks, a sign and
    single underscores between digits; no map ID the crawler builds has
    any of them.) *)
Definition py_int (s : string) : option Z :=
  match s with
  | EmptyString => None
  | _ => digits_value 0 s
  end.

(** Decimal digits of a positive number, most significant first. *)
Fixpoint decimal_from (fuel : nat) (n : Z) (acc : string) : string :=
  match fuel with
  | O => acc
  | S fuel' =>
      let acc' := String (digit_char (n mod 10)) acc in
      if n <? 10 then acc' else decimal_from fuel' (n / 10) acc'
  end.

Definition decimal (n : Z) : string :=
  decimal_from (S (Z.to_nat (Z.log2 n))) n EmptyString.

(** [f"{n:02d}"]: at least two characters, zero-padded, the sign counted
    in the width. *)
Definition fmt02 (n : Z) : string :=
  if n <? 0 then String "-" (decimal (- n))
  else if n <? 10 then String "0" (decimal n)
  else decimal n.

(** [s.split("-")], as the first field and the list of the others. *)
Fixpoint split_dash (s : string) : string * list string :=
  match s with
  | EmptyString => (EmptyString, [])
  | String c s' =>
      let '(field, others) := split_dash s' in
      if Ascii.eqb c "-" then (EmptyString, field :: others)
      else (String c field, others)
  end.

(** [s.startswith(p)] *)
Fixpoint startswith (s p : string) {struct p} : bool :=
  match p with
  | EmptyString => true
  | String a p' =>
      match s with
      | EmptyString => false
      | String b s' => Ascii.eqb a b && startswith s' p'
      end
  end.

(** ** [set] followed by [sort] on lists of strings *)

(** [list(set(l))]: the elements of [l] without repetition (Python leaves
    the order unspecified; every use below sorts afterwards). *)
Fixpoint py_set (l : list string) : list string :=
  match l with
  | [] => []
  | x :: l' => if existsb (String.eqb x) l' then py_set l' else x :: py_set l'
  end.

Fixpoint insert_sorted (x : string) (l : list string) : list string :=
  match l with
  | [] => [x]
  | y :: l' =>
      match String_as_OT.compare x y with
      | Gt => y :: insert_sorted x l'
      | _ => x :: l
      end
  end.

(** [l.sort()]: ascending by code points. *)
Definition py_sort (l : list string) : list string :=
  fold_right insert_sorted [] l.

End Text.

Export Text.

(** ** The reference extractor: [extract_map_references] *)

(** What [fitz] gives for one page: [full_text] (the span texts joined by
    blanks, a blank, then the plain text of the page), or an exception
    raised by [load_page] / [get_text]. *)
Inductive page : Type :=
  | PageText (full_text : string)
  | PageError.

(** A stored artifact as the extractor sees it: [fitz.open] raises, or
    the document opens and has pages. *)
Inductive pdf : Type :=
  | Unreadable
  | Document (pages : list page).

Module Extractor.

(** [int(match)] for a match of [\d{2}] (never a [ValueError] there, see
    [two_digit_int]). *)
Definition match_int (m : string) : Z := default 0 (py_int m).

(** [found_numbers]: the set of the numerals within 1..50.  The code
    iterates a Python [set], whose order is the interpreter's; the order
    of first occurrence stands for it here.  It shows only in the list
    returned when a page fails to load (everywhere else the result is
    sorted), and what is stated of that list is stated up to
    permutation. *)
Definition add_number (found : list Z) (m : string) : list Z :=
  let num := match_int m in
  if (1 <=? num) && (num <=? 50) then
    (if existsb (Z.eqb num) found then found else found ++ [num])
  else found.

Definition found_numbers (two_digit_matches : list string) : list Z :=
  fold_left add_number two_digit_matches [].

(** The body of the page loop: what one page appends to [references]. *)
Definition page_references (full_text : string) : list string :=
  let full_format_matches := findall match_full_format full_text in
  let two_digit_matches := findall match_two_digit full_text in
  full_format_matches
  ++ map (fun num => "001-" +:+ fmt02 num) (found_numbers two_digit_matches).

(** The page loop.  The flag is [false] when a page raised: the loop is
    left with the references appended so far. *)
Fixpoint scan_pages (pages : list page) (references : list string)
    : list string * bool :=
  match pages with
  | [] => (references, true)
  | PageError :: _ => (references, false)
  | PageText full_text :: pages' =>
      scan_pages pages' (references ++ page_references full_text)
  end.

Definition offsets : list Z := [-1; 1; 10; -10].

Definition fallback_refs (current_num : Z) : list string :=
  flat_map (fun offset =>
              let adjacent_num := current_num + offset in
              if (1 <=? adjacent_num) && (adjacent_num <=? 99)
              then ["001-" +:+ fmt02 adjacent_num] else [])
           offsets.

(** The fallback block, entered with fewer than three references. *)
Definition fallback (current_map : string) (references : list string)
    : list string :=
  if startswith current_map "001-" then
    match (split_dash current_map).2 with
    | part :: _ =>
        match py_int part with
        | Some current_num =>
            py_sort (py_set (references ++ fallback_refs current_num))
        | None => references              (* except ValueError: pass *)
        end
    | [] => references                    (* no second field: not reached *)
    end
  else references.

(** [extract_map_references(pdf_path)], with the document found at the
    path and [current_map = pdf_path.stem]. *)
Definition extract_map_references (doc : pdf) (current_map : string)
    : list string :=
  match doc with
  | Unreadable => []
  | Document pages =>
      match scan_pages pages [] with
      | (references, false) => references
      | (references, true) =>
          let references := py_set references in
          let references :=
            filter (fun ref => negb (String.eqb ref current_map)) references in
          let references := py_sort references in
          if (Z.of_nat (length references) <? 3)
          then fallback current_map references
          else references
      end
  end.

End Extractor.

Export Extractor.

(** ** The world of the crawler *)

(** The observable effects: a network request for a map (with its
    outcome) and a call of [time.sleep(DELAY_SECONDS)]. *)
Inductive event : Type :=
  | Request (map_id : string) (ok : bool)
  | Sleep.

(** The output directory ([store], keyed by map ID: the file
    [<map_id>.pdf]), the number of requests sent so far, and the trace of
    effects, oldest first. *)
Record world : Type := World {
  store : gmap string pdf;
  requests : nat;
  trace : list event
}.

Record crawl_state : Type := CrawlState {
  queue : list string;
  processed : gset string;
  failed : gset string
}.

Definition is_request (e : event) : bool :=
  match e with Request _ _ => true | Sleep => false end.

Definition is_failure (e : event) : bool :=
  match e with Request _ false => true | _ => false end.

Definition count_requests (t : list event) : nat := length (filter is_request t).
Definition count_failures (t : list event) : nat := length (filter is_failure t).

Definition requested (t : list event) : list string :=
  flat_map (fun e => match e with Request map_id _ => [map_id] | Sleep => [] end) t.

Definition max_consecutive_failures : Z := 10.
Definition default_max_attempts : nat := 100.

Section Crawler.

(** The origin server: the answer to the [n]-th request of the run, for a
    given map ID.  [None] is a [RequestException] (unreachable, timeout,
    error status); [Some doc] is a body, written to the store as it is. *)
Variable origin : nat -> string -> option pdf.

Definition record (e : event) (w : world) : world :=
  World (store w) (requests w) (trace w ++ [e]).

(** [time.sleep(DELAY_SECONDS)] *)
Definition sleep (w : world) : world := record Sleep w.

(** [download_pdf(map_id, output_path)] *)
Definition download_pdf (map_id : string) (w : world) : bool * world :=
  match store w !! map_id with
  | Some _ => (true, w)                       (* already exists *)
  | None =>
      match origin (requests w) map_id with
      | Some content =>
          (true, World (<[map_id := content]> (store w)) (S (requests w))
                       (trace w ++ [Request map_id true]))
      | None =>
          (false, World (store w) (S (requests w))
                        (trace w ++ [Request map_id false]))
      end
  end.

(** [fitz.open] on the file of a map: a missing file cannot be opened. *)
Definition read_pdf (w : world) (map_id : string) : pdf :=
  default Unreadable (store w !! map_id).

(** [starting_map.split("-")[0]] *)
Definition community_prefix (map_id : string) : string := (split_dash map_id).1.

(** *** [crawl_plat_maps] *)

(** The guarded [queue.append(ref)]. *)
Definition enqueue (prefix : string) (done_ok done_ko : gset string)
    (q : list string) (ref : string) : list string :=
  if startswith ref (prefix +:+ "-")
     && bool_decide (ref ∉ done_ok) && bool_decide (ref ∉ done_ko)
     && bool_decide (ref ∉ q)
  then q ++ [ref] else q.

Definition enqueue_refs (prefix : string) (done_ok done_ko : gset string)
    (references : list string) (q : list string) : list string :=
  fold_left (enqueue prefix done_ok done_ko) references q.

(** The body of the [while] loop once [current_map] has been popped;
    [st] holds the rest of the queue. *)
Definition crawl_iteration (prefix current_map : string)
    (st : crawl_state) (w : world) : crawl_state * world :=
  if bool_decide (current_map ∈ processed st) then (st, w)
  else if bool_decide (current_map ∈ failed st) then (st, w)
  else
    let '(success, w1) := download_pdf current_map w in
    if negb success then
      (CrawlState (queue st) (processed st) ({[current_map]} ∪ failed st), w1)
    else
      let processed' := {[current_map]} ∪ processed st in
      let w2 := sleep w1 in
      let references :=
        extract_map_references (read_pdf w2 current_map) current_map in
      (CrawlState (enqueue_refs prefix processed' (failed st) references (queue st))
                  processed' (failed st), w2).

(** One turn of the loop; a state with an empty queue is final. *)
Definition crawl_step (prefix : string) (c : crawl_state * world)
    : crawl_state * world :=
  match queue c.1 with
  | [] => c
  | current_map :: rest =>
      crawl_iteration prefix current_map
        (CrawlState rest (processed c.1) (failed c.1)) c.2
  end.

(** [while queue: ...], with [fuel] bounding the number of turns. *)
Fixpoint crawl_loop (fuel : nat) (prefix : string) (c : crawl_state * world)
    : option (crawl_state * world) :=
  match queue c.1 with
  | [] => Some c
  | _ :: _ =>
      match fuel with
      | O => None
      | S fuel' => crawl_loop fuel' prefix (crawl_step prefix c)
      end
  end.

Definition crawl_init (starting_map : string) (w : world) : crawl_state * world :=
  (CrawlState [starting_map] ∅ ∅, w).

Definition crawl_plat_maps (fuel : nat) (starting_map : string) (w : world)
    : option ((nat * nat) * world) :=
  match crawl_loop fuel (community_prefix starting_map)
                   (crawl_init starting_map w) with
  | Some (st, w') => Some ((size (processed st), size (failed st)), w')
  | None => None
  end.

(** *** [systematic_discovery] *)

Definition probe_id (prefix : string) (i : Z) : string :=
  prefix +:+ "-" +:+ fmt02 i.

(** The [for i in range(1, max_attempts + 1)] loop over the indices left,
    with the loop variables [discovered] and [consecutive_failures]. *)
Fixpoint probe_loop (prefix : string) (indices : list Z)
    (discovered : gset string) (consecutive_failures : Z) (w : world)
    : gset string * world :=
  match indices with
  | [] => (discovered, w)
  | i :: indices' =>
      let map_id := probe_id prefix i in
      match store w !! map_id with
      | Some _ => probe_loop prefix indices' ({[map_id]} ∪ discovered) 0 w
      | None =>
          let '(success, w1) := download_pdf map_id w in
          if success then
            probe_loop prefix indices' ({[map_id]} ∪ discovered) 0 (sleep w1)
          else
            let consecutive_failures := consecutive_failures + 1 in
            if max_consecutive_failures <=? consecutive_failures
            then (discovered, w1)                                  (* break *)
            else probe_loop prefix indices' discovered consecutive_failures (sleep w1)
      end
  end.

Definition py_range (max_attempts : nat) : list Z :=
  map Z.of_nat (seq 1 max_attempts).

Definition systematic_discovery (community : string) (w : world)
    (max_attempts : nat) : gset string * world :=
  probe_loop community (py_range max_attempts) ∅ 0 w.

(** *** [hybrid_crawl_community] *)

(** Phase 3: the references, read from the discovered maps, that are in
    the community and not in the store. *)
Definition phase3 (prefix : string) (w : world) (discovered : list string)
    : list string :=
  flat_map (fun map_id =>
              match store w !! map_id with
              | Some doc =>
                  filter (fun ref => startswith ref (prefix +:+ "-")
                                     && bool_decide (store w !! ref = None))
                         (extract_map_references doc map_id)
              | None => []
              end)
           discovered.

(** Phase 4: download them, counting successes and failures. *)
Fixpoint phase4 (newly_discovered : list string)
    (additional_processed additional_failed : nat) (w : world)
    : (nat * nat) * world :=
  match newly_discovered with
  | [] => ((additional_processed, additional_failed), w)
  | ref :: rest =>
      let '(success, w1) := download_pdf ref w in
      if success
      then phase4 rest (S additional_processed) additional_failed (sleep w1)
      else phase4 rest additional_processed (S additional_failed) (sleep w1)
  end.

Definition hybrid_crawl_community (fuel : nat) (starting_map : string)
    (w : world) : option ((nat * nat) * world) :=
  let prefix := community_prefix starting_map in
  match crawl_plat_maps fuel starting_map w with
  | None => None
  | Some ((processed_pdf, failed_pdf), w1) =>
      let '(discovered_systematic, w2) :=
        systematic_discovery prefix w1 default_max_attempts in
      let newly_discovered := phase3 prefix w2 (elements discovered_systematic) in
      let '((additional_processed, additional_failed), w3) :=
        phase4 newly_discovered O O w2 in
      let total_processed :=
        (processed_pdf + size discovered_systematic + additional_processed)%nat in
      let total_failed := (failed_pdf + additional_failed)%nat in
      Some ((total_processed, total_failed), w3)
  end.

End Crawler.

Definition empty_world : world := World ∅ O [].

(** ** Vocabulary of the properties *)

(** The shape [0dd-dd] of a map ID. *)
Definition full_format_id (s : string) : bool :=
  match s with
  | String z (String a (String b (String h (String c (String d EmptyString))))) =>
      Ascii.eqb z "0" && is_digit a && is_digit b
      && Ascii.eqb h "-" && is_digit c && is_digit d
  | _ => false
  end.

(** Ascending order of the canonical strings, without repetition. *)
Definition ascending (l : list string) : Prop :=
  StronglySorted String_as_OT.lt l.

(** [sameCommunity] of the identifier model: the same text before the
    first dash. *)
Definition same_community (a b : string) : bool :=
  String.eqb (community_prefix a) (community_prefix b).

(** The candidates of the full-form and short-numeral passes over all the
    pages, before anything is removed. *)
Definition candidates (texts : list string) : list string :=
  concat (map page_references texts).

(** The references the length test of the fallback looks at. *)
Definition found (texts : list string) (current_map : string) : list string :=
  py_sort (filter (fun ref => negb (String.eqb ref current_map))
                  (py_set (candidates texts))).

(** Reading back the sequence number of a formatted 001 map ID. *)
Definition reads_back (n : Z) : bool :=
  match (split_dash ("001-" +:+ fmt02 n)).2 with
  | part :: _ => match py_int part with Some k => k =? n | None => false end
  | [] => false
  end.

(** The extractor's contract as the specification words it: no
    repetition, ascending, only references of the community of the map,
    never the map itself. *)
Definition extractor_contract (texts : list string) (self : string) : Prop :=
  let r := extract_map_references (Document (map PageText texts)) self in
  NoDup r /\ ascending r
  /\ (forall ref, ref ∈ r -> same_community ref self = true)
  /\ self ∉ r.

(** The fallback pass as the specification words it, for the map
    [c-s]: with fewer than three candidates every neighbour in 1..99 is
    proposed in the community [c]; with three or more nothing is added. *)
Definition fallback_contract (texts : list string) (c : string) (s : Z) : Prop :=
  let self := c +:+ "-" +:+ fmt02 s in
  let r := extract_map_references (Document (map PageText texts)) self in
  let n := length (py_set (candidates texts)) in
  ((n < 3)%nat ->
     forall off, off ∈ offsets -> 1 <= s + off <= 99 ->
       (c +:+ "-" +:+ fmt02 (s + off)) ∈ r)
  /\ ((3 <= n)%nat -> forall ref, ref ∈ r -> ref ∈ candidates texts).

(** An extraction that raised: the document did not open, or a page did
    not load. *)
Definition extraction_fails (doc : pdf) : Prop :=
  match doc with
  | Unreadable => True
  | Document pages => (scan_pages pages []).2 = false
  end.

(** The texts of the pages read before the extraction raised. *)
Fixpoint pages_before_error (pages : list page) : list string :=
  match pages with
  | PageText full_text :: pages' => full_text :: pages_before_error pages'
  | _ => []
  end.

Definition read_before_failure (doc : pdf) : list string :=
  match doc with
  | Unreadable => []
  | Document pages => pages_before_error pages
  end.

(** The error handling as the specification words it: a failed
    extraction yields the empty sequence. *)
Definition failure_contract (doc : pdf) (self : string) : Prop :=
  extraction_fails doc -> extract_map_references doc self = [].

(** Every string of the shape [0dd-dd]. *)
Definition digit_chars : list ascii := map digit_char (0 :: py_range 9).

Definition all_map_ids : list string :=
  a ← digit_chars; b ← digit_chars; c ← digit_chars; d ← digit_chars;
  [String "0" (String a (String b (String "-" (String c (String d EmptyString)))))].

Definition universe : gset string := list_to_set all_map_ids.

Section Runs.

Variable origin : nat -> string -> option pdf.

(** What a call of [download_pdf] can do: find the file, fetch and
    write it, or fail; with the events it adds to the trace. *)
Inductive download_outcome (w : world) (map_id : string)
    : bool -> world -> list event -> Prop :=
  | download_exists doc :
      store w !! map_id = Some doc ->
      download_outcome w map_id true w []
  | download_fetched content :
      store w !! map_id = None ->
      origin (requests w) map_id = Some content ->
      download_outcome w map_id true
        (World (<[map_id := content]> (store w)) (S (requests w))
               (trace w ++ [Request map_id true]))
        [Request map_id true]
  | download_failed :
      store w !! map_id = None ->
      origin (requests w) map_id = None ->
      download_outcome w map_id false
        (World (store w) (S (requests w)) (trace w ++ [Request map_id false]))
        [Request map_id false].

(** One turn of the traversal loop, as a step relation: the events of
    the turn, and the references appended to the queue. *)
Inductive crawl_turn (prefix : string)
    : crawl_state * world -> list event -> crawl_state * world -> Prop :=
  | turn_skip current rest done_ok done_ko w :
      current ∈ done_ok \/ current ∈ done_ko ->
      crawl_turn prefix (CrawlState (current :: rest) done_ok done_ko, w) []
                        (CrawlState rest done_ok done_ko, w)
  | turn_failed current rest done_ok done_ko w w1 evs :
      current ∉ done_ok -> current ∉ done_ko ->
      download_outcome w current false w1 evs ->
      crawl_turn prefix (CrawlState (current :: rest) done_ok done_ko, w) evs
                        (CrawlState rest done_ok ({[current]} ∪ done_ko), w1)
  | turn_processed current rest done_ok done_ko w w1 evs added :
      current ∉ done_ok -> current ∉ done_ko ->
      download_outcome w current true w1 evs ->
      NoDup added ->
      (forall x, x ∈ added ->
         x ∈ extract_map_references (read_pdf (sleep w1) current) current
         /\ startswith x (prefix +:+ "-") = true
         /\ (x ∉ ({[current]} ∪ done_ok : gset string)) /\ (x ∉ done_ko) /\ (x ∉ rest)) ->
      crawl_turn prefix (CrawlState (current :: rest) done_ok done_ko, w)
                        (evs ++ [Sleep])
                        (CrawlState (rest ++ added) ({[current]} ∪ done_ok) done_ko,
                         sleep w1).

(** The sweep of the prober as the specification words it, from the
    sequence number [i] on, with the discovered set and the counter of
    consecutive failures: past [max_attempts] it is over; a stored ID is
    recorded and resets the counter, without a fetch; a successful fetch
    is recorded and resets the counter; a failed fetch increments the
    counter, and ends the sweep when the counter reaches the threshold. *)
Inductive sweep (prefix : string) (max_attempts : Z)
    : Z -> gset string -> Z -> world -> gset string -> world -> Prop :=
  | sweep_over i found_so_far failures w :
      max_attempts < i ->
      sweep prefix max_attempts i found_so_far failures w found_so_far w
  | sweep_stored i found_so_far failures w doc result w' :
      i <= max_attempts ->
      store w !! probe_id prefix i = Some doc ->
      sweep prefix max_attempts (i + 1)
            ({[probe_id prefix i]} ∪ found_so_far) 0 w result w' ->
      sweep prefix max_attempts i found_so_far failures w result w'
  | sweep_fetched i found_so_far failures w w1 evs result w' :
      i <= max_attempts ->
      store w !! probe_id prefix i = None ->
      download_outcome w (probe_id prefix i) true w1 evs ->
      sweep prefix max_attempts (i + 1)
            ({[probe_id prefix i]} ∪ found_so_far) 0 (sleep w1) result w' ->
      sweep prefix max_attempts i found_so_far failures w result w'
  | sweep_missed i found_so_far failures w w1 evs result w' :
      i <= max_attempts ->
      store w !! probe_id prefix i = None ->
      download_outcome w (probe_id prefix i) false w1 evs ->
      failures + 1 < max_consecutive_failures ->
      sweep prefix max_attempts (i + 1) found_so_far (failures + 1)
            (sleep w1) result w' ->
      sweep prefix max_attempts i found_so_far failures w result w'
  | sweep_stopped i found_so_far failures w w1 evs :
      i <= max_attempts ->
      store w !! probe_id prefix i = None ->
      download_outcome w (probe_id prefix i) false w1 evs ->
      max_consecutive_failures <= failures + 1 ->
      sweep prefix max_attempts i found_so_far failures w found_so_far w1.

(** A map the sweep will find: stored, or served whenever asked. *)
Definition available (prefix : string) (w : world) (i : Z) : Prop :=
  is_Some (store w !! probe_id prefix i)
  \/ forall n, is_Some (origin n (probe_id prefix i)).

(** A map the sweep will miss: not stored and never served. *)
Definition missing (prefix : string) (w : world) (i : Z) : Prop :=
  store w !! probe_id prefix i = None
  /\ forall n, origin n (probe_id prefix i) = None.

(** The state of a traversal after [n] turns of the loop. *)
Definition crawl_run (starting_map : string) (w : world) (n : nat)
    : crawl_state * world :=
  Nat.iter n (crawl_step origin (community_prefix starting_map))
           (crawl_init starting_map w).

End Runs.

(** The invariant of a traversal started from [starting_map] in the
    world [w0]; [ids] is a set that holds every map ID of the shape
    [0dd-dd]. *)
Record crawl_inv (ids : gset string) (starting_map : string) (w0 : world)
    (c : crawl_state * world) : Prop := CrawlInv {
  inv_queue_nodup : NoDup (queue c.1);
  inv_disjoint : processed c.1 ## failed c.1;
  inv_queue_fresh :
    forall x, x ∈ queue c.1 -> (x ∉ processed c.1) /\ (x ∉ failed c.1);
  inv_stored : processed c.1 ⊆ dom (store c.2);
  inv_universe :
    forall x, x ∈ queue c.1 \/ x ∈ processed c.1 \/ x ∈ failed c.1 ->
              x ∈ {[starting_map]} ∪ ids;
  inv_trace :
    exists evs, trace c.2 = (trace w0 ++ evs)%list
      /\ count_failures evs = size (failed c.1)
      /\ NoDup (requested evs)
      /\ forall x, x ∈ requested evs -> x ∈ processed c.1 \/ x ∈ failed c.1
}.

(** Two origin servers for the examples: one that is down, and one that
    serves a single map. *)
Definition origin_down : nat -> string -> option pdf := fun _ _ => None.

Definition origin_only (map_id : string) (doc : pdf)
    : nat -> string -> option pdf :=
  fun _ requested_id => if String.eqb requested_id map_id then Some doc else None.

(** A trace in which every request that is not the last event is
    followed at once by a delay. *)
Fixpoint delayed (t : list event) : bool :=
  match t with
  | [] => true
  | Sleep :: t' => delayed t'
  | Request _ _ :: t' =>
      match t' with
      | [] => true
      | Sleep :: _ => delayed t'
      | Request _ _ :: _ => false
      end
  end.

(** The events a run added to the trace of the world it started in. *)
Definition events_since (w w' : world) : list event :=
  drop (length (trace w)) (trace w').

(** The failure total as the specification words it: every failed fetch
    of the four phases is counted. *)
Definition totals_contract (origin : nat -> string -> option pdf)
    (fuel : nat) (starting_map : string) (w : world) : Prop :=
  forall total_processed total_failed w',
    hybrid_crawl_community origin fuel starting_map w
    = Some ((total_processed, total_failed), w') ->
    total_failed = count_failures (events_since w w').

(** ** The multi-community driver and the final summary *)

Definition STARTING_MAPS : list string :=
  ["001-01"; "002-01"; "003-01"; "004-01"; "006-01"; "007-01"].

Section Driver.

Variable origin : nat -> string -> option pdf.

(** The loop of [crawl_all_communities] over the starting maps left,
    with the running totals; [fuel] bounds the turns of each traversal. *)
Fixpoint crawl_communities (fuel : nat) (starting_maps : list string)
    (total_processed total_failed : nat) (w : world)
    : option ((nat * nat) * world) :=
  match starting_maps with
  | [] => Some ((total_processed, total_failed), w)
  | starting_map :: rest =>
      match hybrid_crawl_community origin fuel starting_map w with
      | None => None
      | Some ((processed, failed), w') =>
          crawl_communities fuel rest (total_processed + processed)%nat
                            (total_failed + failed)%nat w'
      end
  end.

Definition crawl_all_communities (fuel : nat) (w : world)
    : option ((nat * nat) * world) :=
  crawl_communities fuel STARTING_MAPS O O w.

End Driver.

(** The grouping of [main]: one step of the loop over the stored files,
    with [stem] the name of a file without its extension. *)
Definition add_to_communities (communities : gmap string (list string))
    (stem : string) : gmap string (list string) :=
  let prefix := community_prefix stem in
  let communities :=
    match communities !! prefix with
    | None => <[prefix := []]> communities
    | Some _ => communities
    end in
  alter (fun maps : list string => (maps ++ [stem])%list) prefix communities.

Definition group_by_community (stems : list string)
    : gmap string (list string) :=
  fold_left add_to_communities stems ∅.

(** The lines of the summary printed by [main]: for each prefix, in
    ascending order, the number of its maps. *)
Definition summary (stems : list string) : list (string * nat) :=
  let communities := group_by_community stems in
  map (fun prefix => (prefix, length (default [] (communities !! prefix))))
      (py_sort (elements (dom communities))).

(** ** Vocabulary of the further properties *)

Definition is_sleep (e : event) : bool :=
  match e with Sleep => true | Request _ _ => false end.

Definition count_sleeps (t : list event) : nat := length (filter is_sleep t).

(** Every request of the trace is immediately followed by a delay, the
    last one included. *)
Fixpoint each_request_delayed (t : list event) : bool :=
  match t with
  | [] => true
  | Sleep :: t' => each_request_delayed t'
  | Request _ _ :: t' =>
      match t' with
      | Sleep :: t'' => each_request_delayed t''
      | _ => false
      end
  end.

(** A map ID of the community [prefix]. *)
Definition in_community (prefix ref : string) : bool :=
  startswith ref (prefix +:+ "-").

(** The last two characters of a full-form reference. *)
Definition sequence_part (ref : string) : string :=
  match ref with
  | String _ (String _ (String _ (String _ rest))) => rest
  | _ => EmptyString
  end.

(** The further invariant of a traversal of the community [prefix]
    started from [starting_map] in the world [w0]. *)
Record crawl_inv2 (prefix starting_map : string) (w0 : world)
    (c : crawl_state * world) : Prop := CrawlInv2 {
  inv2_failed_missing : forall x, x ∈ failed c.1 -> store c.2 !! x = None;
  inv2_store_kept :
    forall x doc, store w0 !! x = Some doc -> store c.2 !! x = Some doc;
  inv2_community :
    forall x, x ∈ queue c.1 \/ x ∈ processed c.1 \/ x ∈ failed c.1 ->
              x = starting_map \/ in_community prefix x = true;
  inv2_start :
    starting_map ∈ queue c.1 \/ starting_map ∈ processed c.1
    \/ starting_map ∈ failed c.1;
  inv2_closed :
    forall p ref, p ∈ processed c.1 ->
      ref ∈ extract_map_references (read_pdf c.2 p) p ->
      in_community prefix ref = true ->
      ref ∈ queue c.1 \/ ref ∈ processed c.1 \/ ref ∈ failed c.1;
  inv2_events :
    exists evs, trace c.2 = (trace w0 ++ evs)%list
      /\ count_sleeps evs = size (processed c.1)
      /\ (count_requests evs <= size (processed c.1) + size (failed c.1))%nat
      /\ (forall x, x ∈ requested evs ->
            store w0 !! x = None
            /\ (x = starting_map \/ in_community prefix x = true))
}.

(** A store that already holds everything a traversal of the community
    can reach from it: every same-community reference of a stored map is
    stored. *)
Definition closed_store (prefix : string) (w : world) : Prop :=
  forall map_id doc ref,
    store w !! map_id = Some doc ->
    ref ∈ extract_map_references doc map_id ->
    in_community prefix ref = true ->
    is_Some (store w !! ref).

Fixpoint all_digits (s : string) : bool :=
  match s with
  | EmptyString => true
  | String c s' => is_digit c && all_digits s'
  end.

Fixpoint no_dash (s : string) : bool :=
  match s with
  | EmptyString => true
  | String c s' => negb (Ascii.eqb c "-") && no_dash s'
  end.

(** * Properties *)

(** ** Text primitives *)

Section TextFacts.

Lemma existsb_eqb_elem (x : string) (l : list string) :
  existsb (String.eqb x) l = true <-> x ∈ l.
Proof.
  rewrite existsb_exists. split.
  - intros (y & Hy & E). apply String.eqb_eq in E. subst. by apply list_elem_of_In.
  - intros H. exists x. split; [by apply list_elem_of_In | apply String.eqb_refl].
Qed.

Lemma py_set_elem (x : string) (l : list string) : x ∈ py_set l <-> x ∈ l.
Proof.
  induction l as [|y l IH]; simpl; [done|].
  destruct (existsb (String.eqb y) l) eqn:E.
  - apply existsb_eqb_elem in E. rewrite IH. set_solver.
  - set_solver.
Qed.

Lemma py_set_NoDup (l : list string) : NoDup (py_set l).
Proof.
  induction l as [|y l IH]; simpl; [constructor|].
  destruct (existsb (String.eqb y) l) eqn:E; [done|].
  apply NoDup_cons. split; [|done].
  rewrite py_set_elem, <- existsb_eqb_elem. by rewrite E.
Qed.

Lemma insert_sorted_elem (x y : string) (l : list string) :
  y ∈ insert_sorted x l <-> y = x \/ y ∈ l.
Proof.
  induction l as [|z l IH]; simpl; [set_solver|].
  destruct (String_as_OT.compare x z); set_solver.
Qed.

Lemma py_sort_elem (x : string) (l : list string) : x ∈ py_sort l <-> x ∈ l.
Proof.
  induction l as [|y l IH]; simpl; [done|].
  rewrite insert_sorted_elem, IH. set_solver.
Qed.

Lemma compare_Gt_lt (x y : string) :
  String_as_OT.compare x y = Gt -> String_as_OT.lt y x.
Proof.
  intros H. destruct (String_as_OT.compare_spec x y); congruence.
Qed.

Lemma insert_sorted_ascending (x : string) (l : list string) :
  ascending l -> x ∉ l -> ascending (insert_sorted x l).
Proof.
  unfold ascending. induction l as [|z l IH]; intros Hs Hx; simpl.
  - repeat constructor.
  - inversion Hs as [|? ? Hl Hz]; subst.
    destruct (String_as_OT.compare_spec x z) as [E|L|G].
    + subst. set_solver.
    + constructor; [done|]. constructor; [done|].
      eapply Forall_impl; [exact Hz|]. intros a Ha. simpl in Ha.
      by transitivity z.
    + constructor.
      * apply IH; [done | set_solver].
      * apply Forall_forall. intros a Ha.
        apply insert_sorted_elem in Ha as [->|Ha]; [done|].
        rewrite Forall_forall in Hz. by apply Hz.
Qed.

Lemma py_sort_ascending (l : list string) : NoDup l -> ascending (py_sort l).
Proof.
  induction 1 as [|x l Hx Hl IH]; simpl; [constructor|].
  apply insert_sorted_ascending; [done|].
  by rewrite py_sort_elem.
Qed.

Lemma ascending_NoDup (l : list string) : ascending l -> NoDup l.
Proof.
  induction 1 as [|x l Hl IH Hx]; [constructor|].
  apply NoDup_cons; split; [|done].
  intros Hin. rewrite Forall_forall in Hx. apply Hx in Hin.
  by apply (irreflexivity String_as_OT.lt x).
Qed.

Lemma py_sort_length (l : list string) : length (py_sort l) = length l.
Proof.
  induction l as [|x l IH]; simpl; [done|]. rewrite <- IH.
  generalize (py_sort l). intros m.
  induction m as [|z m IHm]; simpl; [done|].
  destruct (String_as_OT.compare x z); simpl; by rewrite ?IHm.
Qed.

(** Every match reported by [findall] was accepted by the matcher. *)
Lemma findall_from_matches (match_at : bool -> string -> option string)
    (Q : string -> Prop) :
  (forall p s m, match_at p s = Some m -> Q m) ->
  forall s skip p m, m ∈ findall_from match_at skip p s -> Q m.
Proof.
  intros HQ. induction s as [|c s IH]; intros skip p m; simpl; [set_solver|].
  destruct skip as [|k]; [|by apply IH].
  destruct (match_at p (String c s)) as [m'|] eqn:E; [|by apply IH].
  rewrite elem_of_cons. intros [->|H]; [by eapply HQ | by eapply IH].
Qed.

Lemma match_full_format_shape (p : bool) (s m : string) :
  match_full_format p s = Some m -> full_format_id m = true.
Proof.
  unfold match_full_format.
  destruct s as [|z [|a [|b [|h [|c [|d rest]]]]]]; try discriminate.
  destruct (_ && _) eqn:E; [|discriminate].
  intros [= <-]. cbv beta iota delta [full_format_id].
  repeat (apply andb_prop in E as [E ?]).
  by repeat match goal with H : _ = true |- _ => rewrite H end.
Qed.

Lemma match_two_digit_shape (p : bool) (s m : string) :
  match_two_digit p s = Some m ->
  exists a b, m = String a (String b EmptyString)
              /\ is_digit a = true /\ is_digit b = true.
Proof.
  unfold match_two_digit. destruct s as [|a [|b rest]]; try discriminate.
  destruct (_ && _) eqn:E; [|discriminate].
  intros [= <-]. exists a, b.
  repeat (apply andb_prop in E as [E ?]). done.
Qed.

(** [int] never raises on a match of [\d{2}]. *)
Lemma two_digit_int (text m : string) :
  m ∈ findall match_two_digit text -> py_int m = Some (match_int m).
Proof.
  intros H.
  apply (findall_from_matches match_two_digit
           (fun m => py_int m = Some (match_int m))) in H; [done|].
  intros p s m' Hm. apply match_two_digit_shape in Hm as (a & b & -> & Ha & Hb).
  unfold match_int, py_int. simpl. by rewrite Ha, Hb.
Qed.

(** A property checked on 1..99 holds on the whole range. *)
Lemma range_1_99 (P : Z -> bool) :
  forallb P (py_range 99) = true -> forall n, 1 <= n <= 99 -> P n = true.
Proof.
  intros H n Hn. rewrite forallb_forall in H. apply H.
  unfold py_range. apply in_map_iff. exists (Z.to_nat n). split; [lia|].
  apply in_seq. lia.
Qed.

Lemma fmt02_shape (n : Z) :
  1 <= n <= 99 -> full_format_id ("001-" +:+ fmt02 n) = true.
Proof.
  apply (range_1_99 (fun n => full_format_id ("001-" +:+ fmt02 n))).
  by vm_compute.
Qed.

Lemma fmt02_reads_back (n : Z) : 1 <= n <= 99 -> reads_back n = true.
Proof. apply (range_1_99 reads_back). by vm_compute. Qed.

End TextFacts.

(** ** The reference extractor *)

Section ExtractorFacts.

Lemma add_number_elem (acc : list Z) (m : string) (num : Z) :
  num ∈ add_number acc m <->
  num ∈ acc \/ (match_int m = num /\ 1 <= num <= 50).
Proof.
  unfold add_number.
  destruct (1 <=? match_int m) eqn:E1; destruct (match_int m <=? 50) eqn:E2; simpl.
  all: try (split; [tauto | intros [?|[<- ?]]; [done | lia]]).
  destruct (existsb (Z.eqb (match_int m)) acc) eqn:E.
  - apply existsb_exists in E as (k & Hk & E). apply Z.eqb_eq in E. subst k.
    apply list_elem_of_In in Hk. split; [tauto | intros [?|[<- ?]]; done].
  - rewrite elem_of_app, list_elem_of_singleton.
    split; [intros [?| ->]; [tauto | right; lia] | intros [?|[<- ?]]; tauto].
Qed.

(** The short-numeral pass keeps a numeral exactly when it lies in 1..50. *)
Lemma found_numbers_elem (ms : list string) (num : Z) :
  num ∈ found_numbers ms <->
  1 <= num <= 50 /\ exists m, m ∈ ms /\ match_int m = num.
Proof.
  unfold found_numbers.
  assert (G : forall acc, num ∈ fold_left add_number ms acc <->
            num ∈ acc \/ (1 <= num <= 50 /\ exists m, m ∈ ms /\ match_int m = num)).
  { induction ms as [|m ms IH]; intros acc; simpl.
    - split; [tauto | intros [?|(_ & m & Hm & _)]; [done | by apply elem_of_nil in Hm]].
    - rewrite IH, add_number_elem. split.
      + intros [[?|[? ?]]|(? & m' & ? & ?)]; [tauto | | ].
        * right. split; [done|]. exists m. by rewrite elem_of_cons; auto.
        * right. split; [done|]. exists m'. by rewrite elem_of_cons; auto.
      + intros [?|(? & m' & Hm' & ?)]; [tauto|].
        apply elem_of_cons in Hm' as [->|?]; [tauto|].
        right. split; [done|]. by exists m'. }
  rewrite G. split; [intros [H|?]; [by apply elem_of_nil in H | done] | tauto].
Qed.

(** What one page contributes: the full-form matches as they stand, and
    [001-NN] for every short numeral kept. *)
Lemma page_references_elem (text ref : string) :
  ref ∈ page_references text <->
  ref ∈ findall match_full_format text
  \/ exists num, 1 <= num <= 50
       /\ (exists m, m ∈ findall match_two_digit text /\ match_int m = num)
       /\ ref = "001-" +:+ fmt02 num.
Proof.
  unfold page_references. rewrite elem_of_app, list_elem_of_fmap.
  setoid_rewrite found_numbers_elem. naive_solver.
Qed.

Lemma page_references_shape (text ref : string) :
  ref ∈ page_references text -> full_format_id ref = true.
Proof.
  rewrite page_references_elem. intros [H|(num & Hn & _ & ->)].
  - revert H. apply (findall_from_matches match_full_format
                       (fun m => full_format_id m = true)).
    intros p s m. apply match_full_format_shape.
  - apply fmt02_shape. lia.
Qed.

Lemma candidates_shape (texts : list string) (ref : string) :
  ref ∈ candidates texts -> full_format_id ref = true.
Proof.
  unfold candidates. induction texts as [|t ts IH]; simpl.
  - intros H. by apply elem_of_nil in H.
  - rewrite elem_of_app. intros [H|H]; [by eapply page_references_shape | auto].
Qed.

Lemma scan_pages_texts (texts : list string) (acc : list string) :
  scan_pages (map PageText texts) acc = ((acc ++ candidates texts)%list, true).
Proof.
  unfold candidates. revert acc.
  induction texts as [|t ts IH]; intros acc; simpl.
  - by rewrite app_nil_r.
  - by rewrite IH, app_assoc.
Qed.

Lemma scan_pages_error (texts : list string) (rest : list page) (acc : list string) :
  scan_pages (map PageText texts ++ PageError :: rest)%list acc
  = ((acc ++ candidates texts)%list, false).
Proof.
  unfold candidates. revert acc.
  induction texts as [|t ts IH]; intros acc; simpl.
  - by rewrite app_nil_r.
  - by rewrite IH, app_assoc.
Qed.

Lemma scan_pages_shape (pages : list page) (acc : list string) (ref : string) :
  (forall x, x ∈ acc -> full_format_id x = true) ->
  ref ∈ (scan_pages pages acc).1 -> full_format_id ref = true.
Proof.
  revert acc. induction pages as [|[t|] ps IH]; intros acc Hacc; simpl; auto.
  apply IH. intros x. rewrite elem_of_app.
  intros [?|?]; [auto | by eapply page_references_shape].
Qed.

Lemma fallback_refs_elem (n : Z) (ref : string) :
  ref ∈ fallback_refs n <->
  exists off, off ∈ offsets /\ 1 <= n + off <= 99 /\ ref = "001-" +:+ fmt02 (n + off).
Proof.
  unfold fallback_refs. rewrite list_elem_of_In, in_flat_map. split.
  - intros (off & Hoff & H). exists off. apply list_elem_of_In in Hoff.
    destruct (_ && _) eqn:E; [|by destruct H].
    destruct H as [<-|[]]. split; [done|]. split; [lia|done].
  - intros (off & Hoff & Hr & ->). exists off. apply list_elem_of_In in Hoff.
    split; [done|].
    replace ((1 <=? n + off) && (n + off <=? 99)) with true by lia.
    by left.
Qed.

(** With every page readable, the extractor is the clean-up of the
    candidates followed by the length test. *)
Lemma extract_readable (texts : list string) (self : string) :
  extract_map_references (Document (map PageText texts)) self
  = if Z.of_nat (length (found texts self)) <? 3
    then fallback self (found texts self)
    else found texts self.
Proof.
  unfold extract_map_references. by rewrite scan_pages_texts.
Qed.

Lemma found_elem (texts : list string) (self ref : string) :
  ref ∈ found texts self <-> ref ∈ candidates texts /\ ref <> self.
Proof.
  unfold found. rewrite py_sort_elem, list_elem_of_filter, py_set_elem.
  rewrite negb_True, Is_true_true, String.eqb_eq. tauto.
Qed.

Lemma found_ascending (texts : list string) (self : string) :
  ascending (found texts self).
Proof.
  apply py_sort_ascending, NoDup_filter, py_set_NoDup.
Qed.

(** What the fallback returns for a 001 map whose number reads as [n]. *)
Lemma fallback_reads (self part : string) (others refs : list string) (n : Z) :
  startswith self "001-" = true ->
  (split_dash self).2 = part :: others ->
  py_int part = Some n ->
  fallback self refs = py_sort (py_set (refs ++ fallback_refs n)).
Proof. unfold fallback. intros H1 H2 H3. by rewrite H1, H2, H3. Qed.

Lemma fallback_cases (self : string) (refs : list string) :
  fallback self refs = refs
  \/ exists part others n,
       startswith self "001-" = true /\ (split_dash self).2 = part :: others
       /\ py_int part = Some n
       /\ fallback self refs = py_sort (py_set (refs ++ fallback_refs n)).
Proof.
  unfold fallback. destruct (startswith self "001-"); [|by left].
  destruct ((split_dash self).2) as [|part others]; [by left|].
  destruct (py_int part) as [n|] eqn:E; [|by left].
  right. by exists part, others, n.
Qed.

(** The fallback never proposes the map itself. *)
Lemma fallback_refs_not_self (self part : string) (others : list string) (n : Z) :
  (split_dash self).2 = part :: others ->
  py_int part = Some n ->
  self ∉ fallback_refs n.
Proof.
  intros Hs Hp. rewrite fallback_refs_elem. intros (off & Hoff & Hr & ->).
  pose proof (fmt02_reads_back _ Hr) as Hb. unfold reads_back in Hb.
  rewrite Hs, Hp in Hb. apply Z.eqb_eq in Hb.
  unfold offsets in Hoff. set_solver by lia.
Qed.

Lemma extract_readable_elem_shape (texts : list string) (self ref : string) :
  ref ∈ extract_map_references (Document (map PageText texts)) self ->
  full_format_id ref = true.
Proof.
  rewrite extract_readable.
  assert (Hf : ref ∈ found texts self -> full_format_id ref = true).
  { rewrite found_elem. intros [H _]. by eapply candidates_shape. }
  destruct (_ <? 3); [|done].
  destruct (fallback_cases self (found texts self))
    as [->|(part & others & n & _ & _ & _ & ->)]; [done|].
  rewrite py_sort_elem, py_set_elem, elem_of_app, fallback_refs_elem.
  intros [?|(off & _ & Hr & ->)]; [auto | by apply fmt02_shape].
Qed.

(** Whatever the document and whatever happens while reading it, every
    reference returned has the shape [0dd-dd]. *)
Lemma extract_shape (doc : pdf) (self ref : string) :
  ref ∈ extract_map_references doc self -> full_format_id ref = true.
Proof.
  destruct doc as [|pages]; simpl; [intros H; by apply elem_of_nil in H|].
  destruct (scan_pages pages []) as [refs ok] eqn:E.
  assert (Hrefs : forall x, x ∈ refs -> full_format_id x = true).
  { intros x Hx. apply (scan_pages_shape pages [] x).
    - intros y Hy. by apply elem_of_nil in Hy.
    - by rewrite E. }
  destruct ok; [|by apply Hrefs].
  set (f := py_sort _).
  assert (Hf : forall x, x ∈ f -> full_format_id x = true).
  { intros x. unfold f. rewrite py_sort_elem, list_elem_of_filter, py_set_elem.
    intros [_ ?]. auto. }
  destruct (_ <? 3); [|by apply Hf].
  destruct (fallback_cases self f)
    as [->|(part & others & n & _ & _ & _ & ->)]; [by apply Hf|].
  rewrite py_sort_elem, py_set_elem, elem_of_app, fallback_refs_elem.
  intros [?|(off & _ & Hr & ->)]; [auto | by apply fmt02_shape].
Qed.

End ExtractorFacts.

(** ** The guarded append of the traversal *)

Section EnqueueFacts.

Variables (prefix : string) (done_ok done_ko : gset string).

Lemma enqueue_cases (q : list string) (ref : string) :
  (enqueue prefix done_ok done_ko q ref = q)
  \/ (enqueue prefix done_ok done_ko q ref = (q ++ [ref])%list
      /\ startswith ref (prefix +:+ "-") = true
      /\ (ref ∉ done_ok) /\ (ref ∉ done_ko) /\ (ref ∉ q)).
Proof.
  unfold enqueue. destruct (_ && _) eqn:E; [right|by left].
  repeat (apply andb_prop in E as [E ?]).
  repeat match goal with
         | H : bool_decide _ = true |- _ => apply bool_decide_eq_true in H
         end.
  done.
Qed.

(** The queue only grows at its end, by references that pass the guard
    at the moment they are appended. *)
Lemma enqueue_refs_added (refs q : list string) :
  exists added,
    enqueue_refs prefix done_ok done_ko refs q = (q ++ added)%list
    /\ NoDup added
    /\ forall x, x ∈ added ->
         x ∈ refs /\ startswith x (prefix +:+ "-") = true
         /\ (x ∉ done_ok) /\ (x ∉ done_ko) /\ (x ∉ q).
Proof.
  unfold enqueue_refs. revert q.
  induction refs as [|ref refs IH]; intros q; simpl.
  - exists []. rewrite app_nil_r. split; [done|]. split; [constructor|].
    intros x Hx. by apply elem_of_nil in Hx.
  - destruct (enqueue_cases q ref) as [->|(-> & Hp & Hok & Hko & Hq)].
    + destruct (IH q) as (added & -> & Hnd & Hadd). exists added.
      split; [done|]. split; [done|]. intros x Hx.
      destruct (Hadd x Hx) as (? & ? & ? & ? & ?).
      rewrite elem_of_cons. auto 10.
    + destruct (IH (q ++ [ref])%list) as (added & -> & Hnd & Hadd).
      exists (ref :: added). rewrite <- app_assoc. split; [done|]. split.
      * apply NoDup_cons. split; [|done]. intros Hin.
        destruct (Hadd ref Hin) as (_ & _ & _ & _ & Hn).
        apply Hn. rewrite elem_of_app, list_elem_of_singleton. auto.
      * intros x. rewrite !elem_of_cons. intros [->|Hx]; [auto 10|].
        destruct (Hadd x Hx) as (? & ? & ? & ? & Hn).
        rewrite elem_of_app in Hn. auto 10.
Qed.

End EnqueueFacts.

(** What phase 3 of the hybrid crawl keeps: a reference returned for a
    discovered map of the store, in the community, not in the store. *)
Lemma phase3_elem (prefix : string) (w : world) (discovered : list string)
    (ref : string) :
  ref ∈ phase3 prefix w discovered ->
  startswith ref (prefix +:+ "-") = true
  /\ store w !! ref = None
  /\ exists map_id doc,
       map_id ∈ discovered /\ store w !! map_id = Some doc
       /\ ref ∈ extract_map_references doc map_id.
Proof.
  unfold phase3. rewrite list_elem_of_In, in_flat_map.
  intros (map_id & Hm & Hin). apply list_elem_of_In in Hm.
  destruct (store w !! map_id) as [doc|] eqn:E; [|destruct Hin].
  apply list_elem_of_In, list_elem_of_filter in Hin as [Hp Hr].
  apply andb_True in Hp as [Hp Hs].
  split; [by apply Is_true_true|].
  split; [by apply bool_decide_unpack in Hs|].
  by exists map_id, doc.
Qed.

(** ** Claims about the extractor *)

(** C1, as the code has it: for every sequence of page texts and every
    self ID the extractor returns a sequence without repetition, in
    ascending order of the canonical strings, that never holds the self
    ID.  The extractor does not restrict the references to the community
    of the self ID; its callers do: every reference the traversal
    appends to its queue, and every reference phase 3 of the hybrid
    crawl keeps from the map, is a returned one that starts with the
    community prefix and a dash. *)
Theorem extract_references_contract (texts : list string) (self : string) :
  let r := extract_map_references (Document (map PageText texts)) self in
  NoDup r /\ ascending r /\ (self ∉ r)
  /\ (forall done_ok done_ko q ref,
        ref ∈ enqueue_refs (community_prefix self) done_ok done_ko r q ->
        ref ∈ q \/ (ref ∈ r /\ startswith ref (community_prefix self +:+ "-") = true))
  /\ (forall w ref,
        store w !! self = Some (Document (map PageText texts)) ->
        ref ∈ phase3 (community_prefix self) w [self] ->
        ref ∈ r /\ startswith ref (community_prefix self +:+ "-") = true).
Proof.
  intros r.
  assert (Hasc : ascending r /\ self ∉ r).
  { unfold r. rewrite extract_readable.
    assert (Hf : self ∉ found texts self) by (rewrite found_elem; tauto).
    destruct (_ <? 3); [|split; [apply found_ascending | done]].
    destruct (fallback_cases self (found texts self))
      as [->|(part & others & n & _ & Hs & Hp & ->)].
    - split; [apply found_ascending | done].
    - split; [apply py_sort_ascending, py_set_NoDup|].
      rewrite py_sort_elem, py_set_elem, elem_of_app.
      intros [?|Hin]; [done|]. by eapply fallback_refs_not_self. }
  destruct Hasc as [Hasc Hself].
  split; [by apply ascending_NoDup|]. split; [done|]. split; [done|]. split.
  - intros done_ok done_ko q ref Hin.
    destruct (enqueue_refs_added (community_prefix self) done_ok done_ko r q)
      as (added & E & _ & Hadd).
    rewrite E, elem_of_app in Hin. destruct Hin as [?|Hin]; [by left|].
    right. destruct (Hadd ref Hin) as (? & ? & _). done.
  - intros w ref Hdoc Hin.
    destruct (phase3_elem _ _ _ _ Hin) as (Hp & _ & map_id & doc & Hm & Hs & Hr).
    apply list_elem_of_singleton in Hm. subst map_id.
    rewrite Hdoc in Hs. injection Hs as <-. done.
Qed.

(** C1, as stated, fails: a full-form reference to another community
    printed on the page is returned with the others. *)
Lemma extract_references_other_community :
  ~ extractor_contract ["002 003-04"] "001-01".
Proof.
  intros (_ & _ & H & _).
  specialize (H "003-04"). vm_compute in H.
  assert (E : false = true); [apply H|discriminate E].
  repeat constructor.
Qed.

(** C2: a bare two-digit numeral is kept exactly when it lies in 1..50,
    but it is always turned into a map of community 001, whatever the
    community of the document: read on the map 002-01, the numerals 05,
    06 and 07 come back as 001-05, 001-06 and 001-07. *)
Theorem short_numerals_of_community_002 :
  (forall text ref,
      ref ∈ page_references text <->
      ref ∈ findall match_full_format text
      \/ exists num, 1 <= num <= 50
           /\ (exists m, m ∈ findall match_two_digit text /\ match_int m = num)
           /\ ref = "001-" +:+ fmt02 num)
  /\ extract_map_references (Document [PageText "05 06 07"]) "002-01"
     = ["001-05"; "001-06"; "001-07"]
  /\ same_community "001-05" "002-01" = false.
Proof.
  split; [apply page_references_elem|].
  split; by vm_compute.
Qed.

(** C3, as the code has it.  The length test looks at [found]: the
    candidates of the two passes without repetition and without the map
    itself.  With three or more of them the extractor returns them as
    they are; with fewer, a map whose ID does not start with [001-] gets
    nothing more, and the map [001-s] gets, in addition, [001-(s+o)] for
    exactly the offsets [o] among -1, +1, +10, -10 with [s+o] in 1..99. *)
Theorem fallback_pass (texts : list string) (self : string) :
  let r := extract_map_references (Document (map PageText texts)) self in
  let f := found texts self in
  ((3 <= length f)%nat -> r = f)
  /\ ((length f < 3)%nat -> startswith self "001-" = false -> r = f)
  /\ (forall s, (length f < 3)%nat -> 1 <= s <= 99 ->
        self = "001-" +:+ fmt02 s ->
        forall ref, ref ∈ r <->
          ref ∈ f \/ exists off, off ∈ offsets /\ 1 <= s + off <= 99
                                /\ ref = "001-" +:+ fmt02 (s + off)).
Proof.
  intros r f. unfold r. rewrite extract_readable. fold f.
  split; [|split].
  - intros H. by replace (Z.of_nat (length f) <? 3) with false by lia.
  - intros H Hp. replace (Z.of_nat (length f) <? 3) with true by lia.
    unfold fallback. by rewrite Hp.
  - intros s H Hs Hself ref.
    replace (Z.of_nat (length f) <? 3) with true by lia.
    pose proof (fmt02_reads_back s Hs) as Hb. unfold reads_back in Hb.
    rewrite <- Hself in Hb.
    destruct ((split_dash self).2) as [|part others] eqn:Hd; [done|].
    destruct (py_int part) as [k|] eqn:Hk; [|done].
    apply Z.eqb_eq in Hb. subst k.
    rewrite (fallback_reads self part others f s); [|by subst self|done|done].
    by rewrite py_sort_elem, py_set_elem, elem_of_app, fallback_refs_elem.
Qed.

Lemma fallback_pass_witness :
  extract_map_references (Document (map PageText ["10 11 12"])) "001-07"
  = found ["10 11 12"] "001-07"
  /\ extract_map_references (Document (map PageText ["nothing"])) "002-07"
     = found ["nothing"] "002-07"
  /\ "001-17" ∈ extract_map_references (Document (map PageText ["nothing"])) "001-07".
Proof.
  split; [|split].
  - destruct (fallback_pass ["10 11 12"] "001-07") as (H & _ & _).
    apply H. vm_compute. lia.
  - destruct (fallback_pass ["nothing"] "002-07") as (_ & H & _).
    apply H; [vm_compute; lia | reflexivity].
  - destruct (fallback_pass ["nothing"] "001-07") as (_ & _ & H).
    apply (H 7); [vm_compute; lia | lia | reflexivity |].
    right. exists 10. split; [|split; [lia | reflexivity]].
    unfold offsets. repeat constructor.
Defined.

(** C3, as stated, fails: a map of community 002 with no candidate at
    all gets no fallback reference. *)
Lemma fallback_only_for_001 : ~ fallback_contract ["nothing"] "002" 7.
Proof.
  intros [H _].
  assert (Hin : "002-08" ∈ extract_map_references
                  (Document (map PageText ["nothing"])) "002-07").
  { apply (H ltac:(vm_compute; lia) 1); [|lia].
    unfold offsets. repeat constructor. }
  vm_compute in Hin. by apply elem_of_nil in Hin.
Qed.

Lemma scan_pages_failed (pages : list page) (acc : list string) :
  (scan_pages pages acc).2 = false ->
  (scan_pages pages acc).1 = (acc ++ candidates (pages_before_error pages))%list.
Proof.
  unfold candidates. revert acc.
  induction pages as [|[t|] ps IH]; intros acc; simpl.
  - done.
  - intros H. by rewrite (IH _ H), app_assoc.
  - by rewrite app_nil_r.
Qed.

(** C8, as the code has it: an extraction that raises never propagates
    the error; it returns, in some order, the candidates collected from
    the pages read before the failure (the order in which the numerals
    of a page leave the set is the interpreter's, so the statement is up
    to permutation).  This is the empty sequence when the document did
    not open or no candidate had been collected yet. *)
Theorem extraction_failure (doc : pdf) (self : string) :
  extraction_fails doc ->
  extract_map_references doc self ≡ₚ candidates (read_before_failure doc)
  /\ (candidates (read_before_failure doc) = [] ->
      extract_map_references doc self = []).
Proof.
  intros H.
  assert (E : extract_map_references doc self = candidates (read_before_failure doc)).
  { destruct doc as [|pages]; simpl in *; [done|].
    pose proof (scan_pages_failed pages [] H) as E.
    destruct (scan_pages pages []) as [refs ok]. simpl in *. by subst. }
  split; [by rewrite E|]. by rewrite E.
Qed.

Lemma extraction_failure_witness :
  extract_map_references (Document [PageError; PageText "02"]) "001-01" = [].
Proof.
  destruct (extraction_failure (Document [PageError; PageText "02"]) "001-01")
    as [_ H]; [reflexivity|].
  apply H. reflexivity.
Defined.

(** C8, as stated, fails: when the second page cannot be read, the
    references of the first page are returned. *)
Lemma extraction_failure_keeps_references :
  ~ failure_contract (Document [PageText "02"; PageError]) "001-01".
Proof.
  intros H. specialize (H eq_refl). vm_compute in H. discriminate H.
Qed.

(** ** The fetch gateway *)

Section DownloadFacts.

Variable origin : nat -> string -> option pdf.

Lemma download_pdf_outcome (map_id : string) (w : world) :
  exists evs,
    download_outcome origin w map_id
      (download_pdf origin map_id w).1 (download_pdf origin map_id w).2 evs.
Proof.
  unfold download_pdf.
  destruct (store w !! map_id) as [doc|] eqn:E.
  - exists []. by econstructor.
  - destruct (origin (requests w) map_id) as [content|] eqn:O; simpl.
    + eexists. by apply download_fetched.
    + eexists. by apply download_failed.
Qed.

Lemma download_outcome_trace w map_id ok w' evs :
  download_outcome origin w map_id ok w' evs ->
  trace w' = (trace w ++ evs)%list.
Proof. destruct 1; simpl; by rewrite ?app_nil_r. Qed.

(** A download reports success only with the file in the store. *)
Lemma download_outcome_stored w map_id w' evs :
  download_outcome origin w map_id true w' evs -> map_id ∈ dom (store w').
Proof.
  inversion 1; subst; simpl.
  - apply elem_of_dom. eauto.
  - rewrite dom_insert_L. set_solver.
Qed.

(** Nothing is ever removed from the store. *)
Lemma download_outcome_grows w map_id ok w' evs :
  download_outcome origin w map_id ok w' evs -> dom (store w) ⊆ dom (store w').
Proof. destruct 1; simpl; [done | rewrite dom_insert_L; set_solver | done]. Qed.

Lemma download_outcome_events w map_id ok w' evs :
  download_outcome origin w map_id ok w' evs ->
  evs = [] \/ evs = [Request map_id ok].
Proof. destruct 1; auto. Qed.

Lemma download_outcome_failures w map_id ok w' evs :
  download_outcome origin w map_id ok w' evs ->
  count_failures evs = if ok then O else 1%nat.
Proof. destruct 1; reflexivity. Qed.

End DownloadFacts.

(** ** The traversal engine *)

Section TraceFacts.

Lemma count_failures_app (t1 t2 : list event) :
  count_failures (t1 ++ t2) = (count_failures t1 + count_failures t2)%nat.
Proof. unfold count_failures. by rewrite filter_app, length_app. Qed.

Lemma count_failures_failed (map_id : string) :
  count_failures [Request map_id false] = 1%nat.
Proof. reflexivity. Qed.

Lemma count_failures_fetched (map_id : string) :
  count_failures [Request map_id true] = O.
Proof. reflexivity. Qed.

Lemma count_failures_sleep (t : list event) :
  count_failures (Sleep :: t) = count_failures t.
Proof. reflexivity. Qed.

Lemma count_requests_app (t1 t2 : list event) :
  count_requests (t1 ++ t2) = (count_requests t1 + count_requests t2)%nat.
Proof. unfold count_requests. by rewrite filter_app, length_app. Qed.

Lemma requested_app (t1 t2 : list event) :
  requested (t1 ++ t2) = (requested t1 ++ requested t2)%list.
Proof. unfold requested. apply flat_map_app. Qed.

Lemma is_digit_chars (c : ascii) : is_digit c = true -> c ∈ digit_chars.
Proof.
  destruct c as [[] [] [] [] [] [] [] []]; intros H; vm_compute in H;
    try discriminate H; vm_compute; repeat constructor.
Qed.

Lemma full_format_universe (s : string) : full_format_id s = true -> s ∈ universe.
Proof.
  unfold full_format_id.
  destruct s as [|z [|a [|b [|h [|c [|d [|]]]]]]]; try discriminate.
  intros E. repeat (apply andb_prop in E as [E ?]).
  repeat match goal with
         | H : Ascii.eqb _ _ = true |- _ => apply Ascii.eqb_eq in H; subst
         | H : is_digit _ = true |- _ => apply is_digit_chars in H
         end.
  unfold universe, all_map_ids. apply elem_of_list_to_set.
  apply list_elem_of_bind. exists a. split; [|done].
  apply list_elem_of_bind. exists b. split; [|done].
  apply list_elem_of_bind. exists c. split; [|done].
  apply list_elem_of_bind. exists d. split; [|done].
  apply list_elem_of_singleton. done.
Qed.

(** The map IDs of the shape [0dd-dd] fit in a finite set. *)
Lemma universe_exists :
  exists ids : gset string, forall s, full_format_id s = true -> s ∈ ids.
Proof. exists universe. apply full_format_universe. Qed.

End TraceFacts.

Section CrawlFacts.

Variable origin : nat -> string -> option pdf.
Variable prefix : string.

(** The loop body is one of the three turns. *)
Lemma crawl_step_turn (st : crawl_state) (w : world) :
  queue st <> [] ->
  exists evs, crawl_turn origin prefix (st, w) evs (crawl_step origin prefix (st, w)).
Proof.
  destruct st as [[|current rest] done_ok done_ko]; [done|]. intros _.
  unfold crawl_step, crawl_iteration. simpl.
  case_bool_decide as Hok; [eexists; apply turn_skip; auto|].
  case_bool_decide as Hko; [eexists; apply turn_skip; auto|].
  destruct (download_pdf_outcome origin current w) as [evs Hd].
  destruct (download_pdf origin current w) as [[] w1]; simpl in *.
  - destruct (enqueue_refs_added prefix ({[current]} ∪ done_ok) done_ko
                (extract_map_references (read_pdf (sleep w1) current) current) rest)
      as (added & -> & Hnd & Hadd).
    eexists. eapply turn_processed; eauto.
  - eexists. eapply turn_failed; eauto.
Qed.

Variables (starting_map : string) (w0 : world).
Variable ids : gset string.
Hypothesis ids_full : forall s, full_format_id s = true -> s ∈ ids.

Lemma crawl_inv_init : crawl_inv ids starting_map w0 (crawl_init starting_map w0).
Proof.
  split; simpl.
  - apply NoDup_singleton.
  - set_solver.
  - set_solver.
  - set_solver.
  - intros x [Hx|[Hx|Hx]]; set_solver.
  - exists []. rewrite app_nil_r. repeat split; [constructor|].
    intros x Hx. by apply elem_of_nil in Hx.
Qed.

Lemma crawl_inv_turn c evs c' :
  crawl_inv ids starting_map w0 c ->
  crawl_turn origin prefix c evs c' ->
  crawl_inv ids starting_map w0 c'.
Proof.
  intros [Hnd Hdis Hfresh Hst Huni (evs0 & Htr & Hcnt & Hreq & Hin)] Hturn.
  inversion Hturn as
    [cur rest P F w Hskip
    |cur rest P F w w1 evs1 Hok Hko Hd
    |cur rest P F w w1 evs1 added Hok Hko Hd Hadd_nd Hadd]; subst; simpl in *.
  - (* skipped *)
    apply NoDup_cons in Hnd as [Hcur Hnd].
    split; simpl; try done.
    + intros x Hx. apply Hfresh. by apply list_elem_of_further.
    + intros x Hx. apply Huni. rewrite elem_of_cons. tauto.
    + by exists evs0.
  - (* failed *)
    apply NoDup_cons in Hnd as [Hcur Hnd].
    pose proof (download_outcome_trace _ _ _ _ _ _ Hd) as Htr1.
    pose proof (download_outcome_grows _ _ _ _ _ _ Hd) as Hgrow.
    assert (Hev : evs = [Request cur false]) by (by inversion Hd).
    split; simpl.
    + done.
    + set_solver.
    + intros x Hx. destruct (Hfresh x) as [? ?]; [by apply list_elem_of_further|].
      split; [done|]. set_solver.
    + set_solver.
    + intros x Hx. apply Huni. rewrite elem_of_cons. set_solver.
    + exists (evs0 ++ evs)%list. rewrite Htr1, Htr, app_assoc. subst evs.
      split; [done|]. split; [|split].
      * rewrite count_failures_app, Hcnt, count_failures_failed.
        rewrite size_union, size_singleton; [lia | set_solver].
      * rewrite requested_app. simpl. apply NoDup_app. split; [done|].
        split; [|apply NoDup_singleton].
        intros x Hx Hx'. apply list_elem_of_singleton in Hx'. subst x.
        destruct (Hin cur Hx); done.
      * intros x. rewrite requested_app, elem_of_app. simpl.
        rewrite list_elem_of_singleton. intros [Hx| ->]; [|set_solver].
        destruct (Hin x Hx); set_solver.
  - (* processed *)
    apply NoDup_cons in Hnd as [Hcur Hnd].
    pose proof (download_outcome_trace _ _ _ _ _ _ Hd) as Htr1.
    pose proof (download_outcome_grows _ _ _ _ _ _ Hd) as Hgrow.
    pose proof (download_outcome_stored _ _ _ _ _ Hd) as Hstored.
    split; simpl.
    + apply NoDup_app. split; [done|]. split; [|done].
      intros x Hx Hx'. destruct (Hadd x Hx') as (_ & _ & _ & _ & Hn). done.
    + destruct (Hfresh cur) as [? ?]; [apply list_elem_of_here|]. set_solver.
    + intros x. rewrite elem_of_app. intros [Hx|Hx].
      * destruct (Hfresh x) as [? ?]; [by apply list_elem_of_further|].
        split; [|done]. set_solver.
      * destruct (Hadd x Hx) as (_ & _ & ? & ? & _). done.
    + set_solver.
    + intros x. rewrite elem_of_app. intros [[Hx|Hx]|[Hx|Hx]].
      * apply Huni. rewrite elem_of_cons. tauto.
      * destruct (Hadd x Hx) as (Hex & _).
        apply extract_shape, ids_full in Hex. set_solver.
      * apply elem_of_union in Hx as [Hx|Hx]; apply Huni.
        -- apply elem_of_singleton in Hx. subst x. left. apply list_elem_of_here.
        -- tauto.
      * apply Huni. tauto.
    + exists (evs0 ++ evs1 ++ [Sleep])%list. rewrite Htr1, Htr, <- !app_assoc.
      split; [done|].
      rewrite !count_failures_app, !requested_app, Hcnt. simpl.
      rewrite app_nil_r. change (count_failures [Sleep]) with O.
      destruct (download_outcome_events _ _ _ _ _ _ Hd) as [->| ->].
      * change (count_failures []) with O.
        simpl. rewrite app_nil_r. split; [lia|]. split; [done|].
        intros x Hx. destruct (Hin x Hx); set_solver.
      * rewrite count_failures_fetched. simpl. split; [lia|]. split.
        -- apply NoDup_app. split; [done|].
           split; [|apply NoDup_singleton].
           intros x Hx Hx'. apply list_elem_of_singleton in Hx'. subst x.
           destruct (Hin cur Hx); done.
        -- intros x. rewrite elem_of_app, list_elem_of_singleton.
           intros [Hx| ->]; [|set_solver].
           destruct (Hin x Hx); set_solver.
Qed.

End CrawlFacts.

Section TraversalFacts.

Variable origin : nat -> string -> option pdf.
Variables (starting_map : string) (w0 : world).

Let prefix := community_prefix starting_map.

(** What a turn appends was, before the turn, neither processed, nor
    failed, nor in the queue. *)
Lemma crawl_step_appends c :
  exists added,
    queue (crawl_step origin prefix c).1 = (tail (queue c.1) ++ added)%list
    /\ NoDup added
    /\ forall x, x ∈ added ->
         (x ∉ processed c.1) /\ (x ∉ failed c.1) /\ (x ∉ queue c.1).
Proof.
  destruct c as [st w].
  destruct (queue st) as [|current rest] eqn:Hq.
  - exists []. unfold crawl_step. simpl. rewrite Hq. simpl. rewrite Hq.
    split; [done|]. split; [constructor|]. intros x Hx. by apply elem_of_nil in Hx.
  - destruct (crawl_step_turn origin prefix st w) as [evs Hturn];
      [by rewrite Hq|].
    inversion Hturn as
      [cur rest' P F w' Hskip
      |cur rest' P F w' w1 evs1 Hok Hko Hd
      |cur rest' P F w' w1 evs1 added Hok Hko Hd Hadd_nd Hadd]; subst; simpl in *.
    + exists []. rewrite app_nil_r. split; [done|]. split; [constructor|].
      intros x Hx. by apply elem_of_nil in Hx.
    + exists []. rewrite app_nil_r. split; [done|]. split; [constructor|].
      intros x Hx. by apply elem_of_nil in Hx.
    + exists added. split; [done|]. split; [done|].
      intros x Hx. destruct (Hadd x Hx) as (_ & _ & Hn & ? & ?).
      split; [set_solver|]. split; [done|].
      rewrite elem_of_cons. set_solver.
Qed.

Lemma crawl_loop_more (fuel more : nat) c r :
  crawl_loop origin fuel prefix c = Some r ->
  crawl_loop origin (fuel + more) prefix c = Some r.
Proof.
  revert c. induction fuel as [|fuel IH]; intros c; simpl.
  - destruct (queue c.1) eqn:Hq; [|done]. intros [= <-].
    destruct more; simpl; by rewrite Hq.
  - destruct (queue c.1); [done|]. apply IH.
Qed.

(** A loop that ends went through the states of [crawl_run]. *)
Lemma crawl_loop_run (fuel : nat) c r :
  crawl_loop origin fuel prefix c = Some r ->
  queue r.1 = [] /\ exists n, r = Nat.iter n (crawl_step origin prefix) c.
Proof.
  revert c. induction fuel as [|fuel IH]; intros c; simpl.
  - destruct (queue c.1) eqn:Hq; [|done]. intros [= <-].
    split; [done|]. by exists O.
  - destruct (queue c.1) eqn:Hq.
    + intros [= <-]. split; [done|]. by exists O.
    + intros H. destruct (IH _ H) as (? & n & ->). split; [done|].
      exists (S n). by rewrite Nat.iter_succ_r.
Qed.

Variable ids : gset string.
Hypothesis ids_full : forall s, full_format_id s = true -> s ∈ ids.

Lemma crawl_inv_step c :
  crawl_inv ids starting_map w0 c ->
  crawl_inv ids starting_map w0 (crawl_step origin prefix c).
Proof.
  intros Hinv. destruct c as [st w].
  destruct (queue st) as [|current rest] eqn:Hq.
  - unfold crawl_step. simpl. by rewrite Hq.
  - destruct (crawl_step_turn origin prefix st w) as [evs Hturn];
      [by rewrite Hq|].
    by eapply crawl_inv_turn.
Qed.

Lemma crawl_inv_run (n : nat) :
  crawl_inv ids starting_map w0 (crawl_run origin starting_map w0 n).
Proof.
  unfold crawl_run. induction n as [|n IH]; simpl.
  - by apply crawl_inv_init.
  - by apply crawl_inv_step.
Qed.

(** Every turn on a non-empty queue settles one more map. *)
Lemma crawl_step_progress c :
  crawl_inv ids starting_map w0 c -> queue c.1 <> [] ->
  let c' := crawl_step origin prefix c in
  size (processed c'.1 ∪ failed c'.1) = S (size (processed c.1 ∪ failed c.1)).
Proof.
  intros Hinv Hq. destruct c as [st w].
  destruct (crawl_step_turn origin prefix st w Hq) as [evs Hturn].
  destruct Hinv as [_ _ Hfresh _ _ _].
  inversion Hturn as
    [cur rest' P F w' Hskip
    |cur rest' P F w' w1 evs1 Hok Hko Hd
    |cur rest' P F w' w1 evs1 added Hok Hko Hd Hadd_nd Hadd]; subst; simpl in *.
  - destruct (Hfresh cur) as [? ?]; [apply list_elem_of_here|]. tauto.
  - replace (P ∪ ({[cur]} ∪ F)) with ({[cur]} ∪ (P ∪ F)) by set_solver.
    rewrite size_union, size_singleton; [done | set_solver].
  - replace ({[cur]} ∪ P ∪ F) with ({[cur]} ∪ (P ∪ F)) by set_solver.
    rewrite size_union, size_singleton; [done | set_solver].
Qed.

Lemma crawl_settled_bound c :
  crawl_inv ids starting_map w0 c ->
  (size (processed c.1 ∪ failed c.1) ≤ size ({[starting_map]} ∪ ids))%nat.
Proof.
  intros [_ _ _ _ Huni _]. apply subseteq_size.
  intros x Hx. apply Huni. set_solver.
Qed.

(** The loop ends within as many turns as there are map IDs left. *)
Lemma crawl_loop_terminates (k : nat) c :
  crawl_inv ids starting_map w0 c ->
  (size ({[starting_map]} ∪ ids)
   ≤ size (processed c.1 ∪ failed c.1) + k)%nat ->
  exists r, crawl_loop origin k prefix c = Some r
            /\ queue r.1 = [] /\ crawl_inv ids starting_map w0 r.
Proof.
  revert c. induction k as [|k IH]; intros c Hinv Hk.
  - destruct (queue c.1) as [|current rest] eqn:Hq.
    + exists c. simpl. by rewrite Hq.
    + assert (Hne : queue c.1 <> []) by (by rewrite Hq).
      pose proof (crawl_step_progress c Hinv Hne) as Hp.
      pose proof (crawl_settled_bound _ (crawl_inv_step c Hinv)) as Hb.
      simpl in Hp. lia.
  - destruct (queue c.1) as [|current rest] eqn:Hq.
    + exists c. simpl. by rewrite Hq.
    + assert (Hne : queue c.1 <> []) by (by rewrite Hq).
      pose proof (crawl_step_progress c Hinv Hne) as Hp.
      simpl. rewrite Hq. apply IH; [by apply crawl_inv_step|].
      simpl in Hp. lia.
Qed.

End TraversalFacts.

(** C4: at every point of every traversal the processed and failed sets
    are disjoint, the queue holds no ID twice and none that is processed
    or failed, and what the next turn appends to the queue was neither
    processed, nor failed, nor queued. *)
Theorem frontier_invariant (origin : nat -> string -> option pdf)
    (starting_map : string) (w : world) (n : nat) :
  let c := crawl_run origin starting_map w n in
  processed c.1 ## failed c.1
  /\ NoDup (queue c.1)
  /\ (forall x, x ∈ queue c.1 -> (x ∉ processed c.1) /\ (x ∉ failed c.1))
  /\ exists added,
       queue (crawl_run origin starting_map w (S n)).1
       = (tail (queue c.1) ++ added)%list
       /\ NoDup added
       /\ forall x, x ∈ added ->
            (x ∉ processed c.1) /\ (x ∉ failed c.1) /\ (x ∉ queue c.1).
Proof.
  intros c.
  destruct universe_exists as [ids Hids].
  destruct (crawl_inv_run origin starting_map w ids Hids n)
    as [Hnd Hdis Hfresh _ _ _].
  split; [done|]. split; [done|]. split; [done|].
  apply crawl_step_appends.
Qed.

(** C9: for every starting map, every initial store and every behaviour
    of the origin server, the traversal loop ends with an empty queue
    after finitely many turns and returns the sizes of its processed and
    failed sets (with any larger bound on the turns as well); no map is
    requested twice. *)
Theorem traversal_terminates (origin : nat -> string -> option pdf)
    (starting_map : string) (w : world) :
  exists fuel st w' evs,
    crawl_loop origin fuel (community_prefix starting_map)
               (crawl_init starting_map w) = Some (st, w')
    /\ queue st = []
    /\ (forall more,
          crawl_plat_maps origin (fuel + more) starting_map w
          = Some ((size (processed st), size (failed st)), w'))
    /\ trace w' = (trace w ++ evs)%list
    /\ NoDup (requested evs).
Proof.
  destruct universe_exists as [ids Hids].
  destruct (crawl_loop_terminates origin starting_map w ids Hids
              (size ({[starting_map]} ∪ ids))
              (crawl_init starting_map w))
    as ([st w'] & Hloop & Hq & Hinv); [by apply crawl_inv_init | lia |].
  destruct Hinv as [_ _ _ _ _ (evs & Htr & _ & Hreq & _)].
  exists (size ({[starting_map]} ∪ ids)), st, w', evs.
  split; [done|]. split; [done|]. split; [|done].
  intros more. unfold crawl_plat_maps.
  by rewrite (crawl_loop_more _ _ _ _ _ _ Hloop).
Qed.

(** ** The systematic prober *)

Section ProberFacts.

Variable origin : nat -> string -> option pdf.
Variable prefix : string.

Lemma count_requests_requested (t : list event) :
  count_requests t = length (requested t).
Proof.
  unfold count_requests, requested.
  induction t as [|[map_id ok|] t IH]; simpl; [done| |done].
  by rewrite IH.
Qed.

(** The function follows the sweep of the specification. *)
Lemma probe_loop_sweep (n : nat) (i : nat) found_so_far failures w :
  sweep origin prefix (Z.of_nat (i + n) - 1) (Z.of_nat i) found_so_far failures w
    (probe_loop origin prefix (map Z.of_nat (seq i n)) found_so_far failures w).1
    (probe_loop origin prefix (map Z.of_nat (seq i n)) found_so_far failures w).2.
Proof.
  revert i found_so_far failures w.
  induction n as [|n IH]; intros i D cf w; simpl.
  - apply sweep_over. lia.
  - replace (Z.of_nat (i + S n) - 1) with (Z.of_nat (S i + n) - 1) by lia.
    assert (IH' : forall D' cf' w',
              sweep origin prefix (Z.of_nat (S i + n) - 1) (Z.of_nat i + 1) D' cf' w'
                (probe_loop origin prefix (map Z.of_nat (seq (S i) n)) D' cf' w').1
                (probe_loop origin prefix (map Z.of_nat (seq (S i) n)) D' cf' w').2).
    { intros. replace (Z.of_nat i + 1) with (Z.of_nat (S i)) by lia. apply IH. }
    destruct (store w !! probe_id prefix (Z.of_nat i)) as [doc|] eqn:E.
    + eapply sweep_stored; [lia | done | apply IH'].
    + destruct (download_pdf_outcome origin (probe_id prefix (Z.of_nat i)) w)
        as [evs Hd].
      destruct (download_pdf origin (probe_id prefix (Z.of_nat i)) w)
        as [[] w1]; simpl in *.
      * eapply sweep_fetched; [lia | done | done | apply IH'].
      * destruct (max_consecutive_failures <=? cf + 1) eqn:Hc; simpl.
        -- eapply sweep_stopped; [lia | done | done | lia].
        -- eapply sweep_missed; [lia | done | done | lia | apply IH'].
Qed.

(** The requests of a sweep follow the order of the indices, at most one
    for each; the store only grows; what is discovered is stored. *)
Lemma probe_loop_trace (indices : list Z) found_so_far failures w :
  let r := probe_loop origin prefix indices found_so_far failures w in
  exists evs,
    trace r.2 = (trace w ++ evs)%list
    /\ sublist (requested evs) (map (probe_id prefix) indices)
    /\ delayed evs = true
    /\ dom (store w) ⊆ dom (store r.2)
    /\ forall x, x ∈ r.1 ->
         x ∈ found_so_far
         \/ (x ∈ dom (store r.2) /\ x ∈ map (probe_id prefix) indices).
Proof.
  revert found_so_far failures w.
  induction indices as [|i indices IH]; intros D cf w; simpl.
  - exists []. rewrite app_nil_r. split; [done|]. split; [apply sublist_nil|].
    split; [done|]. split; [done|]. intros x Hx. by left.
  - destruct (store w !! probe_id prefix i) as [doc|] eqn:E.
    + destruct (IH ({[probe_id prefix i]} ∪ D) 0 w) as (evs & Ht & Hs & Hdl & Hg & Hd).
      exists evs. split; [done|]. split; [by apply sublist_cons|].
      split; [done|]. split; [done|]. intros x Hx. destruct (Hd x Hx) as [Hin|[? ?]].
      * apply elem_of_union in Hin as [Hin|?]; [|by left].
        apply elem_of_singleton in Hin. subst x. right.
        split; [apply Hg, elem_of_dom; eauto | apply list_elem_of_here].
      * right. split; [done | by apply list_elem_of_further].
    + unfold download_pdf. rewrite E.
      destruct (origin (requests w) (probe_id prefix i)) as [content|] eqn:O.
      * set (w1 := sleep _).
        destruct (IH ({[probe_id prefix i]} ∪ D) 0 w1) as (evs & Ht & Hs & Hdl & Hg & Hd).
        exists ([Request (probe_id prefix i) true; Sleep] ++ evs)%list.
        split; [rewrite Ht; simpl; by rewrite <- !app_assoc|].
        split; [simpl; by apply sublist_skip|]. split; [done|].
        assert (Hg1 : dom (store w) ∪ {[probe_id prefix i]} ⊆ dom (store w1)).
        { simpl. rewrite dom_insert_L. set_solver. }
        split; [set_solver|]. intros x Hx. destruct (Hd x Hx) as [Hin|[? ?]].
        -- apply elem_of_union in Hin as [Hin|?]; [|by left].
           apply elem_of_singleton in Hin. subst x. right.
           split; [set_solver | apply list_elem_of_here].
        -- right. split; [done | by apply list_elem_of_further].
      * destruct (max_consecutive_failures <=? cf + 1) eqn:Hc; simpl.
        -- exists [Request (probe_id prefix i) false].
           split; [done|]. split; [simpl; apply sublist_skip, sublist_nil_l|].
           split; [done|]. split; [done | by left].
        -- set (w1 := sleep _).
           destruct (IH D (cf + 1) w1) as (evs & Ht & Hs & Hdl & Hg & Hd).
           exists ([Request (probe_id prefix i) false; Sleep] ++ evs)%list.
           split; [rewrite Ht; simpl; by rewrite <- !app_assoc|].
           split; [simpl; by apply sublist_skip|]. split; [done|].
           split; [done|]. intros x Hx. destruct (Hd x Hx) as [?|[? ?]]; [by left|].
           right. split; [done | by apply list_elem_of_further].
Qed.

(** In the probing loop a delay follows every request but the one that
    ends the sweep. *)
Lemma systematic_discovery_trace (w : world) (max_attempts : nat) :
  exists evs,
    trace (systematic_discovery origin prefix w max_attempts).2
    = (trace w ++ evs)%list
    /\ delayed evs = true.
Proof.
  destruct (probe_loop_trace (py_range max_attempts) ∅ 0 w)
    as (evs & Ht & _ & Hdl & _).
  by exists evs.
Qed.

End ProberFacts.

Section ProberTail.

Variable origin : nat -> string -> option pdf.
Variable prefix : string.


Lemma probe_available (l1 : list Z) found_so_far failures w :
  (forall i, i ∈ l1 -> available origin prefix w i) ->
  exists failures1 w1,
    (forall rest,
        probe_loop origin prefix (l1 ++ rest) found_so_far failures w
        = probe_loop origin prefix rest
            (list_to_set (map (probe_id prefix) l1) ∪ found_so_far) failures1 w1)
    /\ (failures1 = failures \/ failures1 = 0)
    /\ dom (store w1) = dom (store w) ∪ list_to_set (map (probe_id prefix) l1)
    /\ exists evs, trace w1 = (trace w ++ evs)%list /\ count_failures evs = O.
Proof.
  revert found_so_far failures w.
  induction l1 as [|i l1 IH]; intros D cf w Hav.
  - exists cf, w. split; [|split; [by left|split]].
    + intros rest. simpl. f_equal. set_solver.
    + simpl. set_solver.
    + exists []. by rewrite app_nil_r.
  - assert (Hi : available origin prefix w i) by (apply Hav, list_elem_of_here).
    destruct (store w !! probe_id prefix i) as [doc|] eqn:E.
    + destruct (IH ({[probe_id prefix i]} ∪ D) 0 w) as (cf1 & w1 & Hrun & Hcf & Hdom & Hev).
      { intros j Hj. apply Hav. by apply list_elem_of_further. }
      exists cf1, w1. split; [|split; [right; by destruct Hcf|split; [|done]]].
      * intros rest. simpl. rewrite E, Hrun. f_equal. set_solver.
      * rewrite Hdom. simpl. apply elem_of_dom_2 in E. set_solver.
    + destruct Hi as [Hi|Hi]; [rewrite E in Hi; by destruct Hi|].
      destruct (Hi (requests w)) as [content O].
      set (w' := sleep (World (<[probe_id prefix i := content]> (store w)) (S (requests w))
                              (trace w ++ [Request (probe_id prefix i) true]))).
      destruct (IH ({[probe_id prefix i]} ∪ D) 0 w') as (cf1 & w1 & Hrun & Hcf & Hdom & Hev).
      { intros j Hj. destruct (Hav j) as [Hs|?]; [by apply list_elem_of_further| |by right].
        left. simpl. apply lookup_insert_is_Some'. by right. }
      exists cf1, w1. split; [|split; [right; by destruct Hcf|split]].
      * intros rest. simpl. unfold download_pdf. rewrite E, O. fold w'.
        rewrite Hrun. f_equal. set_solver.
      * rewrite Hdom. simpl. rewrite dom_insert_L. set_solver.
      * destruct Hev as (evs & Ht & Hc).
        exists ([Request (probe_id prefix i) true; Sleep] ++ evs)%list.
        split; [rewrite Ht; simpl; by rewrite <- !app_assoc|].
        by rewrite count_failures_app, Hc.
Qed.

Lemma probe_loop_miss (i : Z) (indices : list Z) found_so_far failures w :
  store w !! probe_id prefix i = None ->
  origin (requests w) (probe_id prefix i) = None ->
  probe_loop origin prefix (i :: indices) found_so_far failures w
  = let w1 := World (store w) (S (requests w))
                    (trace w ++ [Request (probe_id prefix i) false]) in
    if max_consecutive_failures <=? failures + 1
    then (found_so_far, w1)
    else probe_loop origin prefix indices found_so_far (failures + 1) (sleep w1).
Proof.
  intros E O. cbn [probe_loop]. unfold download_pdf. by rewrite E, O.
Qed.

Lemma probe_missing (l2 : list Z) found_so_far failures w :
  (forall i, i ∈ l2 -> missing origin prefix w i) ->
  l2 <> [] ->
  failures + Z.of_nat (length l2) = max_consecutive_failures ->
  exists w1,
    (forall rest,
        probe_loop origin prefix (l2 ++ rest) found_so_far failures w
        = (found_so_far, w1))
    /\ store w1 = store w
    /\ exists evs, trace w1 = (trace w ++ evs)%list
                   /\ count_failures evs = length l2.
Proof.
  revert failures w.
  induction l2 as [|i l2 IH]; intros cf w Hmiss Hne Hlen; [done|].
  destruct (Hmiss i) as [E O]; [apply list_elem_of_here|].
  set (w1 := World (store w) (S (requests w)) (trace w ++ [Request (probe_id prefix i) false])).
  destruct l2 as [|j l2].
  - exists w1. split; [|split; [done|]].
    + intros rest. rewrite <- app_comm_cons, probe_loop_miss by done.
      simpl in Hlen. cbv zeta.
      by replace (max_consecutive_failures <=? cf + 1) with true by lia.
    + by exists [Request (probe_id prefix i) false].
  - destruct (IH (cf + 1) (sleep w1)) as (w2 & Hrun & Hst & evs & Ht & Hc).
    { intros k Hk. apply Hmiss. by apply list_elem_of_further. }
    { done. }
    { simpl length in *. lia. }
    exists w2. split; [|split; [done|]].
    + intros rest. specialize (Hrun rest).
      rewrite <- app_comm_cons, probe_loop_miss by done.
      simpl length in Hlen. cbv zeta.
      replace (max_consecutive_failures <=? cf + 1) with false
        by (unfold max_consecutive_failures in *; lia).
      exact Hrun.
    + exists ([Request (probe_id prefix i) false; Sleep] ++ evs)%list.
      split; [rewrite Ht; simpl; by rewrite <- !app_assoc|].
      rewrite count_failures_app, Hc. done.
Qed.

End ProberTail.

(** C5: for every community prefix and every bound, the prober behaves
    as the sweep of the specification from sequence number 1 with no
    discovery and no failure counted; its requests follow the ascending
    order of the IDs, at most one per ID and at most [max_attempts] in
    all; every discovered ID is in the store at the end; and when the
    maps 1..k are stored or served and the next ten are neither, the
    sweep is the same as with [k + 10] attempts: it discovers exactly
    the maps 1..k and ends on its tenth consecutive failure. *)
Theorem systematic_prober (origin : nat -> string -> option pdf)
    (prefix : string) (w : world) (max_attempts : nat) :
  let r := systematic_discovery origin prefix w max_attempts in
  sweep origin prefix (Z.of_nat max_attempts) 1 ∅ 0 w r.1 r.2
  /\ (exists evs,
        trace r.2 = (trace w ++ evs)%list
        /\ (count_requests evs <= max_attempts)%nat
        /\ sublist (requested evs) (map (probe_id prefix) (py_range max_attempts)))
  /\ r.1 ⊆ dom (store r.2)
  /\ (forall k : nat,
        (k + 10 <= max_attempts)%nat ->
        (forall i, 1 <= i <= Z.of_nat k -> available origin prefix w i) ->
        (forall i, Z.of_nat k < i <= Z.of_nat k + 10 -> missing origin prefix w i) ->
        r = systematic_discovery origin prefix w (k + 10)
        /\ r.1 = list_to_set (map (probe_id prefix) (py_range k))
        /\ exists evs, trace r.2 = (trace w ++ evs)%list
                       /\ count_failures evs = 10%nat).
Proof.
  intros r. unfold r, systematic_discovery, py_range.
  split; [|split; [|split]].
  - pose proof (probe_loop_sweep origin prefix max_attempts 1 ∅ 0 w) as H.
    by replace (Z.of_nat (1 + max_attempts) - 1) with (Z.of_nat max_attempts)
      in H by lia.
  - destruct (probe_loop_trace origin prefix (py_range max_attempts) ∅ 0 w)
      as (evs & Ht & Hs & _ & _ & _).
    exists evs. split; [done|]. split; [|done].
    rewrite count_requests_requested. apply sublist_length in Hs.
    unfold py_range in Hs. by rewrite !length_map, length_seq in Hs.
  - destruct (probe_loop_trace origin prefix (py_range max_attempts) ∅ 0 w)
      as (evs & _ & _ & _ & _ & Hd).
    intros x Hx. destruct (Hd x Hx) as [Hin|[? _]]; [set_solver | done].
  - intros k Hk Hav Hmiss.
    set (l1 := map Z.of_nat (seq 1 k)).
    set (l2 := map Z.of_nat (seq (S k) 10)).
    assert (Hsplit : forall m, (k + 10 <= m)%nat ->
              map Z.of_nat (seq 1 m)
              = (l1 ++ l2 ++ map Z.of_nat (seq (S (k + 10)) (m - (k + 10))))%list).
    { intros m Hm. unfold l1, l2. rewrite <- !map_app. f_equal.
      replace m with (k + (10 + (m - (k + 10))))%nat at 1 by lia.
      rewrite !seq_app. repeat f_equal; lia. }
    assert (Hl1 : forall i, i ∈ l1 -> 1 <= i <= Z.of_nat k).
    { intros i Hi. apply list_elem_of_In, in_map_iff in Hi as (n & <- & Hn).
      apply in_seq in Hn. lia. }
    assert (Hl2 : forall i, i ∈ l2 -> Z.of_nat k < i <= Z.of_nat k + 10).
    { intros i Hi. apply list_elem_of_In, in_map_iff in Hi as (n & <- & Hn).
      apply in_seq in Hn. lia. }
    destruct (probe_available origin prefix l1 ∅ 0 w)
      as (cf1 & w1 & Hrun1 & Hcf & Hdom & evs1 & Ht1 & Hc1); [by auto|].
    assert (cf1 = 0) by (by destruct Hcf). subst cf1.
    destruct (probe_missing origin prefix l2 (list_to_set (map (probe_id prefix) l1) ∪ ∅) 0 w1)
      as (w2 & Hrun2 & Hst & evs2 & Ht2 & Hc2).
    { intros i Hi. destruct (Hmiss i (Hl2 i Hi)) as [E Ho]. split; [|done].
      apply not_elem_of_dom. rewrite Hdom.
      apply not_elem_of_union. split; [by apply not_elem_of_dom|].
      rewrite elem_of_list_to_set, list_elem_of_fmap. intros (j & Hij & Hj).
      destruct (Hav j (Hl1 j Hj)) as [[doc Hs]|Hs].
      - rewrite <- Hij in Hs. congruence.
      - destruct (Hs 0%nat) as [doc Hdoc]. rewrite <- Hij in Hdoc.
        specialize (Ho 0%nat). congruence. }
    { done. }
    { done. }
    rewrite (Hsplit max_attempts Hk), (Hsplit (k + 10)%nat) by lia.
    rewrite !Hrun1, !Hrun2. simpl. split; [done|].
    split; [by rewrite union_empty_r_L|].
    exists (evs1 ++ evs2)%list. rewrite Ht2, Ht1, app_assoc. split; [done|].
    by rewrite count_failures_app, Hc1, Hc2.
Qed.

Lemma systematic_prober_witness :
  (systematic_discovery (origin_only "001-01" (Document [])) "001" empty_world 100).1
  = list_to_set (map (probe_id "001") (py_range 1)).
Proof.
  destruct (systematic_prober (origin_only "001-01" (Document [])) "001"
              empty_world 100) as (_ & _ & _ & H).
  apply (H 1%nat); [lia | |].
  - intros i Hi. assert (i = 1) as -> by lia. right. intros n. by eexists.
  - intros i Hi. split; [apply lookup_empty|]. intros n.
    assert (i = 2 \/ i = 3 \/ i = 4 \/ i = 5 \/ i = 6 \/ i = 7 \/ i = 8
            \/ i = 9 \/ i = 10 \/ i = 11) as Hcases by lia.
    repeat (destruct Hcases as [-> | Hcases]; [reflexivity|]).
    subst i. reflexivity.
Defined.

(** ** The hybrid orchestrator *)

Section HybridFacts.

Variable origin : nat -> string -> option pdf.

Lemma crawl_plat_maps_inv fuel starting_map w p f w' :
  crawl_plat_maps origin fuel starting_map w = Some ((p, f), w') ->
  exists ids st, queue st = [] /\ crawl_inv ids starting_map w (st, w')
                 /\ p = size (processed st) /\ f = size (failed st).
Proof.
  unfold crawl_plat_maps.
  destruct (crawl_loop _ _ _ _) as [[st w1]|] eqn:E; [|done].
  intros [= <- <- <-]. destruct universe_exists as [ids Hids].
  exists ids, st.
  destruct (crawl_loop_run _ _ _ _ _ E) as (Hq & n & Hn).
  split; [done|]. split; [|done].
  rewrite Hn. apply (crawl_inv_run origin starting_map w ids Hids n).
Qed.

Lemma phase4_counts (refs : list string) (ap af : nat) (w : world) :
  let r := phase4 origin refs ap af w in
  exists evs,
    trace r.2 = (trace w ++ evs)%list
    /\ r.1.2 = (af + count_failures evs)%nat
    /\ (r.1.1 + r.1.2 = ap + af + length refs)%nat.
Proof.
  revert ap af w. induction refs as [|ref refs IH]; intros ap af w; simpl.
  - exists []. rewrite app_nil_r. change (count_failures []) with O.
    split; [done|]. split; lia.
  - destruct (download_pdf_outcome origin ref w) as [evs0 Hd].
    pose proof (download_outcome_trace _ _ _ _ _ _ Hd) as Ht0.
    destruct (download_pdf origin ref w) as [[] w1]; simpl in *.
    + destruct (IH (S ap) af (sleep w1)) as (evs & Ht & Hf & Hsum).
      exists (evs0 ++ [Sleep] ++ evs)%list. rewrite Ht. simpl. rewrite Ht0.
      split; [by rewrite <- !app_assoc|].
      split; [|lia]. rewrite Hf, !count_failures_app.
      rewrite (download_outcome_failures _ _ _ _ _ _ Hd).
      rewrite count_failures_sleep. lia.
    + destruct (IH ap (S af) (sleep w1)) as (evs & Ht & Hf & Hsum).
      exists (evs0 ++ [Sleep] ++ evs)%list. rewrite Ht. simpl. rewrite Ht0.
      split; [by rewrite <- !app_assoc|].
      split; [|lia]. rewrite Hf, !count_failures_app.
      rewrite (download_outcome_failures _ _ _ _ _ _ Hd).
      rewrite count_failures_sleep. lia.
Qed.

End HybridFacts.

(** C6, as the code has it: the reported processed total is the
    processed count of the traversal plus the number of maps discovered
    by the prober plus the successes of the last phase; the reported
    failure total is the failed count of the traversal plus the failures
    of the last phase, that is, every failed fetch of the run except
    those of the probing phase, which are not counted. *)
Theorem hybrid_totals (origin : nat -> string -> option pdf) (fuel : nat)
    (starting_map : string) (w : world)
    (total_processed total_failed : nat) (w' : world) :
  hybrid_crawl_community origin fuel starting_map w
  = Some ((total_processed, total_failed), w') ->
  exists processed_pdf failed_pdf w1 discovered w2
         additional_processed additional_failed evs1 evs2 evs4,
    crawl_plat_maps origin fuel starting_map w
    = Some ((processed_pdf, failed_pdf), w1)
    /\ systematic_discovery origin (community_prefix starting_map) w1
         default_max_attempts = (discovered, w2)
    /\ phase4 origin
         (phase3 (community_prefix starting_map) w2 (elements discovered))
         O O w2
       = ((additional_processed, additional_failed), w')
    /\ total_processed
       = (processed_pdf + size discovered + additional_processed)%nat
    /\ total_failed = (failed_pdf + additional_failed)%nat
    /\ trace w1 = (trace w ++ evs1)%list
    /\ trace w2 = (trace w1 ++ evs2)%list
    /\ trace w' = (trace w2 ++ evs4)%list
    /\ failed_pdf = count_failures evs1
    /\ additional_failed = count_failures evs4
    /\ (total_failed + count_failures evs2
        = count_failures (evs1 ++ evs2 ++ evs4))%nat.
Proof.
  unfold hybrid_crawl_community.
  destruct (crawl_plat_maps origin fuel starting_map w)
    as [[[p1 f1] w1]|] eqn:E1; [|done].
  destruct (systematic_discovery _ _ w1 _) as [D w2] eqn:E2.
  destruct (phase4 _ _ _ _ w2) as [[ap af] w3] eqn:E4.
  intros [= <- <- <-].
  destruct (crawl_plat_maps_inv _ _ _ _ _ _ _ E1)
    as (ids & st & _ & [_ _ _ _ _ (evs1 & Ht1 & Hc1 & _)] & -> & ->).
  destruct (systematic_discovery_trace origin (community_prefix starting_map)
              w1 default_max_attempts) as (evs2 & Ht2 & _).
  rewrite E2 in Ht2.
  pose proof (phase4_counts origin
                (phase3 (community_prefix starting_map) w2 (elements D))
                O O w2) as (evs4 & Ht4 & Hf4 & _).
  rewrite E4 in Ht4, Hf4. simpl in *.
  exists (size (processed st)), (size (failed st)), w1, D, w2, ap, af,
         evs1, evs2, evs4.
  repeat (split; [done|]).
  rewrite !count_failures_app. lia.
Qed.

Lemma hybrid_totals_witness :
  exists w',
    hybrid_crawl_community origin_down 5 "001-01" empty_world
    = Some ((0, 1)%nat, w')
    /\ exists evs1 evs2 evs4,
         trace w' = (((trace empty_world ++ evs1) ++ evs2) ++ evs4)%list
         /\ (1 + count_failures evs2 = count_failures (evs1 ++ evs2 ++ evs4))%nat.
Proof.
  assert (E : exists w',
             hybrid_crawl_community origin_down 5 "001-01" empty_world
             = Some ((0, 1)%nat, w')) by (eexists; vm_compute; reflexivity).
  destruct E as [w' E]. exists w'. split; [exact E|].
  destruct (hybrid_totals origin_down 5 "001-01" empty_world 0 1 w' E)
    as (p1 & f1 & w1 & D & w2 & ap & af & evs1 & evs2 & evs4
        & _ & _ & _ & _ & _ & Ht1 & Ht2 & Ht4 & _ & _ & Hsum).
  exists evs1, evs2, evs4. split; [|exact Hsum].
  rewrite <- Ht1, <- Ht2. exact Ht4.
Defined.

(** C6, as stated, fails: with the origin down, the traversal fails once
    and the prober ten times; the reported failure total is 1. *)
Lemma hybrid_totals_omit_probing :
  ~ totals_contract origin_down 5 "001-01" empty_world.
Proof.
  intros H.
  assert (E : exists w',
             hybrid_crawl_community origin_down 5 "001-01" empty_world
             = Some ((0, 1)%nat, w')
             /\ count_failures (events_since empty_world w') = 11%nat).
  { eexists. split; vm_compute; reflexivity. }
  destruct E as (w' & E & Hc). apply H in E. rewrite Hc in E. discriminate E.
Qed.

(** C7: in the traversal loop a failed fetch is followed at once by the
    next fetch.  The origin serves only the starting map, whose page
    names no other map: the two fallback neighbours are requested one
    after the other with no delay in between. *)
Theorem traversal_no_delay_after_failure :
  exists w',
    crawl_plat_maps (origin_only "001-01" (Document [PageText "no references"]))
                    5 "001-01" empty_world
    = Some ((1, 2)%nat, w')
    /\ trace w' = [Request "001-01" true; Sleep;
                  Request "001-02" false; Request "001-11" false]
    /\ delayed (trace w') = false.
Proof. eexists. split; [|split]; vm_compute; reflexivity. Qed.

(** C10: at every point of a traversal every processed map has its file
    in the store, so the processed count is at most the number of files;
    a download reports success only with the file in the store; and the
    processed count a traversal returns is at most the number of files
    in the store it leaves. *)
Theorem processed_are_stored (origin : nat -> string -> option pdf)
    (starting_map : string) (w : world) :
  (forall n,
      let c := crawl_run origin starting_map w n in
      processed c.1 ⊆ dom (store c.2)
      /\ (size (processed c.1) <= size (dom (store c.2)))%nat)
  /\ (forall map_id w1,
        (download_pdf origin map_id w1).1 = true ->
        map_id ∈ dom (store (download_pdf origin map_id w1).2))
  /\ (forall fuel processed_count failed_count w',
        crawl_plat_maps origin fuel starting_map w
        = Some ((processed_count, failed_count), w') ->
        (processed_count <= size (dom (store w')))%nat).
Proof.
  split; [|split].
  - intros n c.
    destruct universe_exists as [ids Hids].
    destruct (crawl_inv_run origin starting_map w ids Hids n) as [_ _ _ Hst _ _].
    split; [done | by apply subseteq_size].
  - intros map_id w1 Hok.
    destruct (download_pdf_outcome origin map_id w1) as [evs Hd].
    rewrite Hok in Hd. by eapply download_outcome_stored.
  - intros fuel p f w' E.
    destruct (crawl_plat_maps_inv _ _ _ _ _ _ _ E)
      as (ids & st & _ & [_ _ _ Hst _ _] & -> & _).
    by apply subseteq_size.
Qed.

Lemma processed_are_stored_witness :
  "001-01" ∈ dom (store (download_pdf (origin_only "001-01" (Document []))
                                      "001-01" empty_world).2)
  /\ exists w',
       crawl_plat_maps (origin_only "001-01" (Document [])) 5 "001-01" empty_world
       = Some ((1, 2)%nat, w')
       /\ (1 <= size (dom (store w')))%nat.
Proof.
  destruct (processed_are_stored (origin_only "001-01" (Document []))
              "001-01" empty_world) as (_ & Hdl & Hcount).
  split; [by apply Hdl|].
  assert (E : exists w',
             crawl_plat_maps (origin_only "001-01" (Document [])) 5 "001-01"
                             empty_world
             = Some ((1, 2)%nat, w')) by (eexists; vm_compute; reflexivity).
  destruct E as [w' E]. exists w'. split; [exact E|].
  exact (Hcount 5%nat 1%nat 2%nat w' E).
Defined.

(** * Further properties *)

(** ** The fetch gateway *)

(** X1: a download that succeeded is not repeated: calling
    [download_pdf] again for the same map returns [True] and changes
    nothing, so it sends no request. *)
Theorem download_pdf_idempotent (origin : nat -> string -> option pdf)
    (map_id : string) (w : world) :
  (download_pdf origin map_id w).1 = true ->
  download_pdf origin map_id (download_pdf origin map_id w).2
  = (true, (download_pdf origin map_id w).2).
Proof.
  unfold download_pdf.
  destruct (store w !! map_id) as [doc|] eqn:E; simpl.
  - by rewrite E.
  - destruct (origin (requests w) map_id) as [content|]; simpl; [|done].
    by rewrite lookup_insert_eq.
Qed.

Lemma download_pdf_idempotent_witness :
  download_pdf (origin_only "001-01" (Document [])) "001-01"
    (download_pdf (origin_only "001-01" (Document [])) "001-01" empty_world).2
  = (true, (download_pdf (origin_only "001-01" (Document [])) "001-01"
                         empty_world).2).
Proof.
  apply (download_pdf_idempotent (origin_only "001-01" (Document [])) "001-01"
           empty_world).
  reflexivity.
Defined.

(** X2: [download_pdf] never deletes or overwrites a file and touches no
    file but the one of the map asked for; it reports success exactly
    when that file is in the store afterwards; and it sends at most one
    request. *)
Theorem download_pdf_effects (origin : nat -> string -> option pdf)
    (map_id : string) (w : world) :
  let r := download_pdf origin map_id w in
  (forall x doc, store w !! x = Some doc -> store r.2 !! x = Some doc)
  /\ (forall x, x <> map_id -> store r.2 !! x = store w !! x)
  /\ (r.1 = true <-> is_Some (store r.2 !! map_id))
  /\ (requests r.2 <= S (requests w))%nat
  /\ (requests r.2 = requests w -> r.2 = w).
Proof.
  unfold download_pdf.
  destruct (store w !! map_id) as [doc|] eqn:E; simpl.
  - rewrite E. repeat split; eauto.
  - destruct (origin (requests w) map_id) as [content|]; simpl.
    + split; [|split; [|split; [|split]]].
      * intros x doc Hx. rewrite lookup_insert_ne; [done|]. congruence.
      * intros x Hx. by rewrite lookup_insert_ne.
      * rewrite lookup_insert_eq. split; eauto.
      * lia.
      * lia.
    + rewrite E. split; [done|]. split; [done|]. split; [|split; lia].
      split; [done|]. intros [? ?]. done.
Qed.

(** ** Map IDs: formatting and reading back *)

Section RoundTrip.

Lemma digit_char_spec (d : Z) :
  0 <= d <= 9 ->
  is_digit (digit_char d) = true /\ digit_value (digit_char d) = d
  /\ Ascii.eqb (digit_char d) "-" = false.
Proof.
  intros H.
  assert (d = 0 \/ d = 1 \/ d = 2 \/ d = 3 \/ d = 4 \/ d = 5 \/ d = 6
          \/ d = 7 \/ d = 8 \/ d = 9) as Hd by lia.
  repeat (destruct Hd as [-> | Hd]; [by vm_compute|]).
  subst d. by vm_compute.
Qed.

Lemma append_cons (c : ascii) (s t : string) :
  String c s +:+ t = String c (s +:+ t).
Proof. reflexivity. Qed.

Lemma append_nil_l (t : string) : "" +:+ t = t.
Proof. reflexivity. Qed.

Lemma append_nil_r (s : string) : s +:+ "" = s.
Proof. induction s as [|c s IH]; [done|]. by rewrite append_cons, IH. Qed.

Lemma append_assoc (s1 s2 s3 : string) :
  (s1 +:+ s2) +:+ s3 = s1 +:+ (s2 +:+ s3).
Proof.
  induction s1 as [|c s1 IH]; [done|]. by rewrite !append_cons, IH.
Qed.

(** The digits written for [n] read back as [n], whatever follows. *)
Lemma decimal_from_spec (fuel : nat) (n : Z) (acc : string) :
  (0 < fuel)%nat ->
  0 <= n < 10 ^ Z.of_nat fuel ->
  exists ds,
    decimal_from fuel n acc = ds +:+ acc
    /\ ds <> "" /\ all_digits ds = true /\ no_dash ds = true
    /\ forall a rest,
         digits_value a (ds +:+ rest)
         = digits_value (a * 10 ^ Z.of_nat (String.length ds) + n) rest.
Proof.
  revert n acc. induction fuel as [|fuel IH]; intros n acc Hf Hn.
  - lia.
  - cbn [decimal_from]. destruct (n <? 10) eqn:E.
    + apply Z.ltb_lt in E.
      destruct (digit_char_spec (n mod 10)) as (Hd & Hv & Hm);
        [rewrite Z.mod_small; lia|].
      exists (String (digit_char (n mod 10)) "").
      split; [done|]. split; [done|].
      split; [simpl; by rewrite Hd|]. split; [simpl; by rewrite Hm|].
      intros a rest. rewrite append_cons, append_nil_l. simpl.
      rewrite Hd, Hv, Z.mod_small by lia.
      f_equal. lia.
    + apply Z.ltb_ge in E.
      destruct (digit_char_spec (n mod 10)) as (Hd & Hv & Hm);
        [pose proof (Z.mod_pos_bound n 10); lia|].
      destruct (IH (n / 10) (String (digit_char (n mod 10)) acc))
        as (ds & Hds & Hne & Hall & Hnd & Hval).
      { destruct fuel; [|lia]. simpl in Hn. lia. }
      { split; [apply Z.div_pos; lia|].
        apply Z.div_lt_upper_bound; [lia|].
        rewrite Nat2Z.inj_succ, Z.pow_succ_r in Hn; lia. }
      exists (ds +:+ String (digit_char (n mod 10)) "").
      split; [by rewrite Hds, append_assoc|].
      split; [by destruct ds|].
      assert (Hext : forall t, all_digits t = true -> no_dash t = true ->
                all_digits (t +:+ String (digit_char (n mod 10)) "") = true
                /\ no_dash (t +:+ String (digit_char (n mod 10)) "") = true
                /\ String.length (t +:+ String (digit_char (n mod 10)) "")
                   = S (String.length t)).
      { induction t as [|c t IHt]; rewrite ?append_cons, ?append_nil_l; simpl.
        - intros _ _. by rewrite Hd, Hm.
        - intros [Hc Ht]%andb_prop [Hc' Ht']%andb_prop.
          destruct (IHt Ht Ht') as (-> & -> & ->). by rewrite Hc, Hc'. }
      destruct (Hext ds Hall Hnd) as (Ha & Hb & Hlen).
      split; [done|]. split; [done|].
      intros a rest. rewrite append_assoc, Hval, append_cons, append_nil_l.
      simpl. rewrite Hd, Hv, Hlen, Nat2Z.inj_succ, Z.pow_succ_r by lia.
      f_equal. pose proof (Z.div_mod n 10). lia.
Qed.

Lemma decimal_spec (n : Z) :
  0 <= n ->
  decimal n <> "" /\ all_digits (decimal n) = true /\ no_dash (decimal n) = true
  /\ forall a, digits_value a (decimal n)
               = Some (a * 10 ^ Z.of_nat (String.length (decimal n)) + n).
Proof.
  intros Hn. unfold decimal.
  destruct (decimal_from_spec (S (Z.to_nat (Z.log2 n))) n "")
    as (ds & Hds & Hne & Hall & Hnd & Hval).
  { lia. }
  { split; [done|]. destruct (Z.eq_dec n 0) as [->|Hz]; [by vm_compute|].
    pose proof (Z.log2_spec n ltac:(lia)) as [_ Hlt].
    pose proof (Z.log2_nonneg n).
    rewrite Nat2Z.inj_succ, Z2Nat.id by done.
    eapply Z.lt_le_trans; [exact Hlt|].
    apply Z.pow_le_mono_l. lia. }
  rewrite Hds, append_nil_r. split; [done|]. split; [done|]. split; [done|].
  intros a. specialize (Hval a ""). by rewrite append_nil_r in Hval.
Qed.

(** [int(f"{n:02d}") == n] for every [n] that is not negative. *)
Lemma py_int_fmt02 (n : Z) :
  0 <= n ->
  py_int (fmt02 n) = Some n
  /\ all_digits (fmt02 n) = true /\ no_dash (fmt02 n) = true.
Proof.
  intros Hn. destruct (decimal_spec n Hn) as (Hne & Hall & Hnd & Hval).
  unfold fmt02. replace (n <? 0) with false by lia.
  destruct (n <? 10) eqn:E.
  - split; [|by simpl; rewrite Hall, Hnd].
    unfold py_int. simpl. rewrite Hval. f_equal; lia.
  - split; [|done]. unfold py_int.
    destruct (decimal n) eqn:Ed; [done|]. rewrite Hval. f_equal; lia.
Qed.

Lemma split_dash_no_dash (s : string) :
  no_dash s = true -> split_dash s = (s, []).
Proof.
  induction s as [|c s IH]; simpl; [done|].
  intros [Hc Hs]%andb_prop. rewrite (IH Hs).
  by destruct (Ascii.eqb c "-").
Qed.

Lemma split_dash_append (p s : string) :
  no_dash p = true ->
  split_dash (p +:+ "-" +:+ s)
  = (p, (split_dash s).1 :: (split_dash s).2).
Proof.
  change ("-" +:+ s) with (String "-" s).
  induction p as [|c p IH]; rewrite ?append_cons, ?append_nil_l; simpl.
  - intros _. by destruct (split_dash s).
  - intros [Hc Hp]%andb_prop. rewrite (IH Hp).
    by destruct (Ascii.eqb c "-").
Qed.

End RoundTrip.

Lemma map_id_round_trip_aux (prefix : string) (i : Z) :
  0 <= i ->
  (no_dash prefix = true ->
     community_prefix (probe_id prefix i) = prefix
     /\ exists part, (split_dash (probe_id prefix i)).2 = [part]
                     /\ py_int part = Some i)
  /\ (forall j, 0 <= j -> probe_id prefix i = probe_id prefix j -> i = j).
Proof.
  intros Hi. destruct (py_int_fmt02 i Hi) as (Hint & _ & Hnd). split.
  - intros Hp. unfold community_prefix, probe_id.
    rewrite (split_dash_append prefix (fmt02 i) Hp).
    rewrite (split_dash_no_dash _ Hnd). simpl. split; [done|]. by exists (fmt02 i).
  - intros j Hj E. unfold probe_id in E.
    apply String.app_inj in E. apply String.app_inj in E.
    destruct (py_int_fmt02 j Hj) as (Hj' & _). congruence.
Qed.

(** X3: a map ID written as [prefix-NN] reads back: for a prefix without
    a dash and a sequence number that is not negative,
    [split("-")[0]] gives the prefix and [int(split("-")[1])] gives the
    number; and two different numbers never give the same ID. *)
Theorem map_id_round_trip (prefix : string) (i : Z) :
  0 <= i ->
  (no_dash prefix = true ->
     community_prefix (probe_id prefix i) = prefix
     /\ exists part, (split_dash (probe_id prefix i)).2 = [part]
                     /\ py_int part = Some i)
  /\ (forall j, 0 <= j -> probe_id prefix i = probe_id prefix j -> i = j).
Proof. apply map_id_round_trip_aux. Qed.

Lemma map_id_round_trip_witness :
  community_prefix (probe_id "007" 65) = "007".
Proof.
  destruct (map_id_round_trip "007" 65 ltac:(lia)) as [H _].
  apply H. reflexivity.
Defined.

(** X4: the fallback of a map of community 001 for every sequence
    number, also above 99 (the prober builds [001-100]): with fewer
    than three references found, the extractor returns them and
    [001-(s+o)] for exactly the offsets [o] among -1, +1, +10, -10 with
    [s+o] in 1..99. *)
Theorem fallback_any_sequence (texts : list string) (s : Z) :
  0 <= s ->
  let self := "001-" +:+ fmt02 s in
  (length (found texts self) < 3)%nat ->
  forall ref,
    ref ∈ extract_map_references (Document (map PageText texts)) self <->
    ref ∈ found texts self
    \/ exists off, off ∈ offsets /\ 1 <= s + off <= 99
                   /\ ref = "001-" +:+ fmt02 (s + off).
Proof.
  intros Hs self Hlen ref. rewrite extract_readable.
  replace (Z.of_nat (length (found texts self)) <? 3) with true by lia.
  destruct (py_int_fmt02 s Hs) as (Hint & _ & Hnd).
  rewrite (fallback_reads self (fmt02 s) [] (found texts self) s); [|done| |done].
  - by rewrite py_sort_elem, py_set_elem, elem_of_app, fallback_refs_elem.
  - unfold self. change ("001-" +:+ fmt02 s) with ("001" +:+ "-" +:+ fmt02 s).
    rewrite split_dash_append by done. by rewrite (split_dash_no_dash _ Hnd).
Qed.

Lemma fallback_any_sequence_witness :
  "001-90" ∈ extract_map_references (Document (map PageText ["nothing"]))
               ("001-" +:+ fmt02 100).
Proof.
  apply (fallback_any_sequence ["nothing"] 100); [lia | vm_compute; lia |].
  right. exists (-10). split; [|split; [lia | reflexivity]].
  unfold offsets. repeat constructor.
Defined.

(** ** The extractor: what its result depends on *)

Section ExtractorProps.

(** Two ascending sequences with the same members are equal. *)
Lemma ascending_unique (l1 l2 : list string) :
  ascending l1 -> ascending l2 ->
  (forall x, x ∈ l1 <-> x ∈ l2) -> l1 = l2.
Proof.
  unfold ascending. revert l2.
  induction l1 as [|x l1 IH]; intros l2 H1 H2 Hiff.
  - destruct l2 as [|y l2]; [done|].
    specialize (Hiff y). rewrite elem_of_cons in Hiff.
    destruct Hiff as [_ Hy]. by apply elem_of_nil in Hy; [|left].
  - destruct l2 as [|y l2].
    { specialize (Hiff x). rewrite elem_of_cons in Hiff.
      destruct Hiff as [Hx _]. by apply elem_of_nil in Hx; [|left]. }
    inversion H1 as [|? ? Hs1 Hf1]; subst.
    inversion H2 as [|? ? Hs2 Hf2]; subst.
    rewrite Forall_forall in Hf1, Hf2.
    assert (x = y) as <-.
    { destruct (Hiff x) as [Hx _]. destruct (Hiff y) as [_ Hy].
      rewrite !elem_of_cons in Hx, Hy.
      destruct Hx as [?|Hx]; [by left|done|].
      destruct Hy as [?|Hy]; [by left|done|].
      apply Hf2 in Hx. apply Hf1 in Hy.
      exfalso. apply (irreflexivity String_as_OT.lt x). by transitivity y. }
    f_equal. apply IH; [done|done|]. intros z. split; intros Hz.
    + destruct (Hiff z) as [Hz' _]. rewrite !elem_of_cons in Hz'.
      destruct Hz' as [->|?]; [by right| |done].
      apply Hf1 in Hz. exfalso. by apply (irreflexivity String_as_OT.lt x).
    + destruct (Hiff z) as [_ Hz']. rewrite !elem_of_cons in Hz'.
      destruct Hz' as [->|?]; [by right| |done].
      apply Hf2 in Hz. exfalso. by apply (irreflexivity String_as_OT.lt x).
Qed.

Lemma py_sort_set_unique (l1 l2 : list string) :
  (forall x, x ∈ l1 <-> x ∈ l2) ->
  py_sort (py_set l1) = py_sort (py_set l2).
Proof.
  intros H. apply ascending_unique.
  - apply py_sort_ascending, py_set_NoDup.
  - apply py_sort_ascending, py_set_NoDup.
  - intros x. by rewrite !py_sort_elem, !py_set_elem.
Qed.

Lemma found_unique (texts1 texts2 : list string) (self : string) :
  (forall x, x ∈ candidates texts1 <-> x ∈ candidates texts2) ->
  found texts1 self = found texts2 self.
Proof.
  intros H. apply ascending_unique; [apply found_ascending..|].
  intros x. rewrite !found_elem. by rewrite H.
Qed.

(** Whatever the fallback does, the references found stay. *)
Lemma found_in_result (texts : list string) (self ref : string) :
  ref ∈ found texts self ->
  ref ∈ extract_map_references (Document (map PageText texts)) self.
Proof.
  intros H. rewrite extract_readable. destruct (_ <? 3); [|done].
  destruct (fallback_cases self (found texts self))
    as [->|(part & others & n & _ & _ & _ & ->)]; [done|].
  rewrite py_sort_elem, py_set_elem, elem_of_app. by left.
Qed.

Lemma candidates_app (texts1 texts2 : list string) :
  candidates (texts1 ++ texts2) = (candidates texts1 ++ candidates texts2)%list.
Proof. unfold candidates. by rewrite map_app, concat_app. Qed.

Lemma candidates_elem (texts : list string) (ref : string) :
  ref ∈ candidates texts <-> exists text, text ∈ texts /\ ref ∈ page_references text.
Proof.
  unfold candidates. induction texts as [|t ts IH]; simpl.
  - split; [intros H; by apply elem_of_nil in H|].
    intros (text & H & _). by apply elem_of_nil in H.
  - rewrite elem_of_app, IH. split.
    + intros [H|(text & Ht & H)].
      * exists t. split; [apply list_elem_of_here | done].
      * exists text. split; [by apply list_elem_of_further | done].
    + intros (text & Ht & H). apply elem_of_cons in Ht as [->|Ht]; [by left|].
      right. by exists text.
Qed.

End ExtractorProps.

(** X5: the result of the extractor depends only on which candidates
    the pages hold, not on the order of the pages nor on how often a
    page or a reference occurs. *)
Theorem extract_depends_on_candidates (texts1 texts2 : list string)
    (self : string) :
  (forall ref, ref ∈ candidates texts1 <-> ref ∈ candidates texts2) ->
  extract_map_references (Document (map PageText texts1)) self
  = extract_map_references (Document (map PageText texts2)) self.
Proof.
  intros H. rewrite !extract_readable.
  by rewrite (found_unique texts1 texts2 self H).
Qed.

Lemma extract_depends_on_candidates_witness :
  extract_map_references (Document (map PageText ["12 13"; "003-04"])) "001-01"
  = extract_map_references
      (Document (map PageText ["003-04"; "12 13"; "003-04"])) "001-01".
Proof.
  apply (extract_depends_on_candidates ["12 13"; "003-04"]
           ["003-04"; "12 13"; "003-04"] "001-01").
  intros ref.
  set (c1 := candidates ["12 13"; "003-04"]). vm_compute in c1.
  set (c2 := candidates ["003-04"; "12 13"; "003-04"]). vm_compute in c2.
  subst c1 c2. rewrite !elem_of_cons, !elem_of_nil. tauto.
Defined.

(** ** Full-form references are short numerals too *)

Section ScanFacts.

(** A match reported by [findall] was found at some position of the
    text. *)
Lemma findall_from_position (match_at : bool -> string -> option string)
    (s : string) :
  forall skip p m,
    m ∈ findall_from match_at skip p s ->
    exists pre suf p', s = pre +:+ suf /\ match_at p' suf = Some m.
Proof.
  induction s as [|c s IH]; intros skip p m; simpl.
  - intros H. by apply elem_of_nil in H.
  - assert (Hrest : forall k q, m ∈ findall_from match_at k q s ->
              exists pre suf p', String c s = pre +:+ suf
                                 /\ match_at p' suf = Some m).
    { intros k q H. destruct (IH k q m H) as (pre & suf & p' & -> & Hm).
      by exists (String c pre), suf, p'. }
    destruct skip as [|k]; [|by apply Hrest].
    destruct (match_at p (String c s)) as [m'|] eqn:E; [|by apply Hrest].
    rewrite elem_of_cons. intros [->|H]; [|by eapply Hrest].
    by exists "", (String c s), p.
Qed.

Lemma not_word_not_digit (c : ascii) : is_word c = false -> is_digit c = false.
Proof. unfold is_word. by destruct (is_digit c). Qed.

(** After a character that is not a word character, the scan for
    [\b(\d{2})\b] starts afresh. *)
Lemma two_digit_scan_resumes (pre : string) (c : ascii) (s : string) :
  is_word c = false ->
  forall skip prev,
    (skip = O
     \/ (skip = 1%nat
         /\ exists d rest, pre +:+ String c s = String d rest
                           /\ is_digit d = true)) ->
    exists ms,
      findall_from match_two_digit skip prev (pre +:+ String c s)
      = (ms ++ findall_from match_two_digit O false s)%list.
Proof.
  intros Hc. pose proof (not_word_not_digit c Hc) as Hd.
  induction pre as [|a pre IH]; intros skip prev Hskip.
  - destruct Hskip as [->|(_ & d & rest & E & Hdig)].
    + exists []. rewrite append_nil_l. cbn [findall_from app].
      assert (match_two_digit prev (String c s) = None) as ->.
      { unfold match_two_digit. destruct s; [done|].
        by rewrite Hd, andb_false_r. }
      by rewrite Hc.
    + rewrite append_nil_l in E. injection E as <- _. congruence.
  - rewrite append_cons. cbn [findall_from].
    destruct Hskip as [->|(-> & _)].
    + destruct (match_two_digit prev (String a (pre +:+ String c s)))
        as [m|] eqn:E.
      * unfold match_two_digit in E.
        destruct (pre +:+ String c s) as [|b rest] eqn:Er; [done|].
        destruct (_ && _) eqn:Hcond; [|done]. injection E as <-.
        repeat (apply andb_prop in Hcond as [Hcond ?]).
        destruct (IH 1%nat (is_word a)) as [ms Hms].
        { right. split; [done|]. exists b, rest. first [done | by rewrite Er]. }
        try rewrite Er in Hms. exists (String a (String b "") :: ms).
        cbn [String.length Nat.pred]. by rewrite Hms.
      * destruct (IH O (is_word a)) as [ms Hms]; [by left|]. by exists ms.
    + destruct (IH O (is_word a)) as [ms Hms]; [by left|]. by exists ms.
Qed.

End ScanFacts.

(** X6: a full-form reference printed on a page is read a second time
    as a short numeral: whenever [0xx-yy] is matched and the number
    [int(yy)] lies in 1..50, the page also yields ["001-"] followed by
    that number in the [:02d] format, whatever the community [0xx], and
    the extractor returns it unless it is the map itself. *)
Theorem full_form_also_short (texts : list string) (text m self : string) :
  text ∈ texts ->
  m ∈ findall match_full_format text ->
  1 <= match_int (sequence_part m) <= 50 ->
  ("001-" +:+ fmt02 (match_int (sequence_part m))) ∈ page_references text
  /\ ("001-" +:+ fmt02 (match_int (sequence_part m)) <> self ->
      ("001-" +:+ fmt02 (match_int (sequence_part m)))
        ∈ extract_map_references (Document (map PageText texts)) self).
Proof.
  intros Htext Hm Hrange.
  assert (Hpage : ("001-" +:+ fmt02 (match_int (sequence_part m)))
                    ∈ page_references text).
  { destruct (findall_from_position match_full_format text O false m Hm)
      as (pre & suf & p' & -> & Hmatch).
    unfold match_full_format in Hmatch.
    destruct suf as [|z [|a [|b [|h [|c [|d rest]]]]]]; try done.
    destruct (_ && _) eqn:Hcond; [|done]. injection Hmatch as <-.
    repeat (apply andb_prop in Hcond as [Hcond ?]).
    repeat match goal with
           | H : Ascii.eqb _ _ = true |- _ => apply Ascii.eqb_eq in H; subst
           end.
    cbn [sequence_part] in *.
    apply page_references_elem. right.
    exists (match_int (String c (String d ""))). split; [done|]. split; [|done].
    exists (String c (String d "")). split; [|done].
    unfold findall.
    replace (pre +:+ String "0" (String a (String b (String "-"
               (String c (String d rest))))))
      with ((pre +:+ String "0" (String a (String b "")))
            +:+ String "-" (String c (String d rest)))
      by (by rewrite append_assoc).
    destruct (two_digit_scan_resumes
                (pre +:+ String "0" (String a (String b ""))) "-"
                (String c (String d rest)) eq_refl O false) as [ms ->];
      [by left|].
    apply elem_of_app. right. cbn [findall_from].
    assert (match_two_digit false (String c (String d rest))
            = Some (String c (String d ""))) as ->.
    { unfold match_two_digit. simpl.
      by repeat match goal with H : _ = true |- _ => rewrite H end. }
    apply list_elem_of_here. }
  split; [done|]. intros Hne. apply found_in_result, found_elem.
  split; [|done]. apply candidates_elem. by exists text.
Qed.

Lemma full_form_also_short_witness :
  "001-04" ∈ extract_map_references
               (Document (map PageText ["lot 17, see 003-04"])) "002-01".
Proof.
  destruct (full_form_also_short ["lot 17, see 003-04"] "lot 17, see 003-04"
              "003-04" "002-01") as [_ H].
  - repeat constructor.
  - vm_compute. repeat constructor.
  - vm_compute. split; discriminate.
  - apply H. discriminate.
Defined.

(** ** The traversal engine: what it keeps and what it reaches *)

Section TraversalProps.

Variable origin : nat -> string -> option pdf.
Variable prefix : string.

Lemma count_sleeps_app (t1 t2 : list event) :
  count_sleeps (t1 ++ t2) = (count_sleeps t1 + count_sleeps t2)%nat.
Proof. unfold count_sleeps. by rewrite filter_app, length_app. Qed.

(** Every reference that passes the guard is in the queue afterwards. *)
Lemma enqueue_refs_complete (done_ok done_ko : gset string)
    (refs q : list string) (ref : string) :
  ref ∈ q \/ (ref ∈ refs /\ in_community prefix ref = true
              /\ (ref ∉ done_ok) /\ (ref ∉ done_ko)) ->
  ref ∈ enqueue_refs prefix done_ok done_ko refs q.
Proof.
  unfold enqueue_refs. revert q.
  induction refs as [|r refs IH]; intros q; simpl.
  - intros [?|(H & _)]; [done|]. by apply elem_of_nil in H.
  - intros H. apply IH.
    destruct (enqueue_cases prefix done_ok done_ko q r)
      as [E|(E & Hp & Hok & Hko & Hq)]; rewrite E.
    + destruct H as [?|(Hin & Hc & Hok & Hko)]; [by left|].
      apply elem_of_cons in Hin as [->|Hin]; [|by right].
      left. unfold enqueue in E. unfold in_community in Hc. rewrite Hc in E.
      rewrite !bool_decide_eq_true_2 in E by done. simpl in E.
      destruct (bool_decide (r ∉ q)) eqn:Eq.
      * exfalso. simpl in E. apply (f_equal length) in E.
        rewrite length_app in E. simpl in E. lia.
      * apply bool_decide_eq_false in Eq. by apply dec_stable.
    + destruct H as [?|(Hin & Hc & Hok' & Hko')].
      * left. apply elem_of_app. by left.
      * apply elem_of_cons in Hin as [->|Hin]; [|by right].
        left. apply elem_of_app. right. apply list_elem_of_here.
Qed.

(** The three ways a turn of the loop can go. *)
Lemma crawl_step_cases (current : string) (rest : list string)
    (done_ok done_ko : gset string) (w : world) :
  let c := (CrawlState (current :: rest) done_ok done_ko, w) in
  ((current ∈ done_ok \/ current ∈ done_ko)
   /\ crawl_step origin prefix c = (CrawlState rest done_ok done_ko, w))
  \/ ((current ∉ done_ok) /\ (current ∉ done_ko)
      /\ store w !! current = None
      /\ origin (requests w) current = None
      /\ crawl_step origin prefix c
         = (CrawlState rest done_ok ({[current]} ∪ done_ko),
            World (store w) (S (requests w))
                  (trace w ++ [Request current false])))
  \/ ((current ∉ done_ok) /\ (current ∉ done_ko)
      /\ exists w1 evs,
           download_outcome origin w current true w1 evs
           /\ crawl_step origin prefix c
              = (CrawlState
                   (enqueue_refs prefix ({[current]} ∪ done_ok) done_ko
                      (extract_map_references
                         (read_pdf (sleep w1) current) current) rest)
                   ({[current]} ∪ done_ok) done_ko,
                 sleep w1)).
Proof.
  intros c. unfold c, crawl_step, crawl_iteration. simpl.
  case_bool_decide as Hok; [left; auto|].
  case_bool_decide as Hko; [left; auto|].
  right. unfold download_pdf.
  destruct (store w !! current) as [doc|] eqn:E.
  - right. split; [done|]. split; [done|]. exists w, []. split; [|done].
    by eapply download_exists.
  - destruct (origin (requests w) current) as [content|] eqn:O; simpl.
    + right. split; [done|]. split; [done|]. eexists _, _. split; [|done].
      by apply download_fetched.
    + left. done.
Qed.

Variables (starting_map : string) (w0 : world).

Lemma crawl_inv2_init :
  crawl_inv2 prefix starting_map w0 (crawl_init starting_map w0).
Proof.
  split; simpl.
  - intros x Hx. by apply elem_of_empty in Hx.
  - done.
  - intros x [Hx|[Hx|Hx]].
    + apply list_elem_of_singleton in Hx. by left.
    + by apply elem_of_empty in Hx.
    + by apply elem_of_empty in Hx.
  - left. apply list_elem_of_here.
  - intros p ref Hp. by apply elem_of_empty in Hp.
  - exists []. rewrite app_nil_r. split; [done|]. split; [done|].
    split; [done|]. intros x Hx. by apply elem_of_nil in Hx.
Qed.

Lemma read_pdf_sleep (w : world) (x : string) :
  read_pdf (sleep w) x = read_pdf w x.
Proof. done. Qed.

Lemma crawl_inv2_step c :
  crawl_inv2 prefix starting_map w0 c ->
  crawl_inv2 prefix starting_map w0 (crawl_step origin prefix c).
Proof.
  destruct c as [[[|cur rest] P F] w]; [done|].
  intros [Hmiss Hkept Hcom Hstart Hclosed (evs0 & Htr & Hsl & Hrq & Hreq)].
  simpl in *.
  destruct (crawl_step_cases cur rest P F w)
    as [(Hskip & ->)|[(Hok & Hko & Hs & Ho & ->)|(Hok & Hko & w1 & evs & Hd & ->)]].
  - (* skipped *)
    split; simpl; try done.
    + intros x Hx. apply Hcom. rewrite elem_of_cons. tauto.
    + rewrite elem_of_cons in Hstart.
      destruct Hstart as [[->|?]|?]; tauto.
    + intros p ref Hp Href Hc.
      destruct (Hclosed p ref Hp Href Hc) as [Hq|?]; [|tauto].
      apply elem_of_cons in Hq as [->|?]; tauto.
    + by exists evs0.
  - (* failed *)
    split; simpl.
    + intros x Hx. apply elem_of_union in Hx as [Hx|Hx]; [|by apply Hmiss].
      apply elem_of_singleton in Hx. by subst.
    + done.
    + intros x Hx. apply Hcom. rewrite elem_of_cons.
      rewrite elem_of_union, elem_of_singleton in Hx. tauto.
    + rewrite elem_of_cons in Hstart.
      rewrite elem_of_union, elem_of_singleton. destruct Hstart as [[->|?]|?]; tauto.
    + intros p ref Hp Href Hc.
      rewrite elem_of_union, elem_of_singleton.
      destruct (Hclosed p ref Hp Href Hc) as [Hq|?]; [|tauto].
      apply elem_of_cons in Hq as [->|?]; tauto.
    + exists (evs0 ++ [Request cur false])%list.
      rewrite Htr, <- app_assoc. split; [done|].
      rewrite count_sleeps_app, count_requests_app, requested_app, Hsl.
      change (count_sleeps [Request cur false]) with O.
      change (count_requests [Request cur false]) with 1%nat.
      rewrite size_union, size_singleton by set_solver.
      split; [lia|]. split; [lia|].
      intros x. rewrite elem_of_app. intros [Hx|Hx]; [by apply Hreq|].
      apply list_elem_of_singleton in Hx. subst x. split.
      * destruct (store w0 !! cur) as [doc|] eqn:E0; [|done].
        apply Hkept in E0. congruence.
      * apply Hcom. left. apply list_elem_of_here.
  - (* processed *)
    assert (Hw1 : forall x, x <> cur -> store w1 !! x = store w !! x).
    { intros x Hx. inversion Hd; subst; simpl; [done|].
      by rewrite lookup_insert_ne. }
    assert (Hgrow : forall x doc, store w !! x = Some doc ->
                                  store w1 !! x = Some doc).
    { intros x doc Hx. inversion Hd; subst; simpl; [done|].
      rewrite lookup_insert_ne; [done|]. congruence. }
    split; simpl.
    + intros x Hx. rewrite Hw1; [by apply Hmiss|]. intros ->. done.
    + intros x doc Hx. by apply Hgrow, Hkept.
    + intros x.
      destruct (enqueue_refs_added prefix ({[cur]} ∪ P) F
                  (extract_map_references (read_pdf (sleep w1) cur) cur) rest)
        as (added & -> & _ & Hadd).
      rewrite elem_of_app, elem_of_union, elem_of_singleton.
      intros [[Hx|Hx]|[[->|Hx]|Hx]].
      * apply Hcom. left. by apply list_elem_of_further.
      * right. by destruct (Hadd x Hx) as (_ & ? & _).
      * apply Hcom. left. apply list_elem_of_here.
      * apply Hcom. tauto.
      * apply Hcom. tauto.
    + rewrite elem_of_cons in Hstart.
      rewrite elem_of_union, elem_of_singleton.
      destruct Hstart as [[->|Hq]|[?|?]]; [tauto| |tauto|tauto].
      left. apply enqueue_refs_complete. by left.
    + intros p ref Hp Href Hc.
      destruct (decide (ref ∈ ({[cur]} ∪ P))) as [?|Hn1]; [tauto|].
      destruct (decide (ref ∈ F)) as [?|Hn2]; [tauto|].
      left. apply enqueue_refs_complete.
      apply elem_of_union in Hp as [Hp|Hp].
      * apply elem_of_singleton in Hp. subst p. right. done.
      * left. rewrite read_pdf_sleep in Href. unfold read_pdf in Href.
        rewrite Hw1 in Href by (intros ->; done).
        destruct (Hclosed p ref Hp Href Hc) as [Hq|[?|?]].
        -- apply elem_of_cons in Hq as [->|?]; [|done].
           exfalso. apply Hn1. set_solver.
        -- exfalso. apply Hn1. set_solver.
        -- done.
    + exists (evs0 ++ evs ++ [Sleep])%list.
      rewrite (download_outcome_trace _ _ _ _ _ _ Hd), Htr, <- !app_assoc.
      split; [done|].
      rewrite !count_sleeps_app, !count_requests_app, !requested_app, Hsl.
      rewrite size_union, size_singleton by set_solver.
      change (count_sleeps [Sleep]) with 1%nat.
      change (count_requests [Sleep]) with O.
      change (requested [Sleep]) with (@nil string). rewrite app_nil_r.
      destruct (download_outcome_events _ _ _ _ _ _ Hd) as [->| ->].
      * change (count_sleeps []) with O. change (count_requests []) with O.
        change (requested []) with (@nil string). rewrite app_nil_r.
        split; [lia|]. split; [lia|]. done.
      * change (count_sleeps [Request cur true]) with O.
        change (count_requests [Request cur true]) with 1%nat.
        split; [lia|]. split; [lia|].
        intros x. rewrite elem_of_app. intros [Hx|Hx]; [by apply Hreq|].
        apply list_elem_of_singleton in Hx. subst x. split.
        -- destruct (store w0 !! cur) as [doc|] eqn:E0; [|done].
           apply Hkept in E0. inversion Hd; congruence.
        -- apply Hcom. left. apply list_elem_of_here.
Qed.

End TraversalProps.

Section TraversalRuns.

Variable origin : nat -> string -> option pdf.
Variables (starting_map : string) (w : world).

Lemma crawl_inv2_run (n : nat) :
  crawl_inv2 (community_prefix starting_map) starting_map w
             (crawl_run origin starting_map w n).
Proof.
  unfold crawl_run. induction n as [|n IH]; simpl.
  - apply crawl_inv2_init.
  - by apply crawl_inv2_step.
Qed.

Lemma crawl_loop_inv2 (fuel : nat) (st : crawl_state) (w' : world) :
  crawl_loop origin fuel (community_prefix starting_map)
             (crawl_init starting_map w) = Some (st, w') ->
  queue st = []
  /\ crawl_inv2 (community_prefix starting_map) starting_map w (st, w').
Proof.
  intros E. destruct (crawl_loop_run _ _ _ _ _ E) as (Hq & n & Hn).
  split; [done|]. rewrite Hn. apply crawl_inv2_run.
Qed.

End TraversalRuns.

(** X7: at every point of a traversal, no failed map has a file in the
    store, every file of the initial store is still there with its
    content, and every map queued, processed or failed is the starting
    map or a map of its community. *)
Theorem traversal_keeps (origin : nat -> string -> option pdf)
    (starting_map : string) (w : world) (n : nat) :
  let c := crawl_run origin starting_map w n in
  (forall x, x ∈ failed c.1 -> store c.2 !! x = None)
  /\ (forall x doc, store w !! x = Some doc -> store c.2 !! x = Some doc)
  /\ (forall x, x ∈ queue c.1 \/ x ∈ processed c.1 \/ x ∈ failed c.1 ->
        x = starting_map
        \/ startswith x (community_prefix starting_map +:+ "-") = true).
Proof.
  intros c. destruct (crawl_inv2_run origin starting_map w n)
    as [Hmiss Hkept Hcom _ _ _].
  done.
Qed.

(** X8: the throttle of the traversal, counted: at every point the
    trace holds exactly one delay per processed map and at most one
    request per processed or failed map, and every request is for a map
    that had no file when the traversal started. *)
Theorem traversal_accounting (origin : nat -> string -> option pdf)
    (starting_map : string) (w : world) (n : nat) :
  let c := crawl_run origin starting_map w n in
  exists evs,
    trace c.2 = (trace w ++ evs)%list
    /\ count_sleeps evs = size (processed c.1)
    /\ (count_requests evs <= size (processed c.1) + size (failed c.1))%nat
    /\ forall x, x ∈ requested evs -> store w !! x = None.
Proof.
  intros c. destruct (crawl_inv2_run origin starting_map w n)
    as [_ _ _ _ _ (evs & Ht & Hs & Hr & Hreq)].
  exists evs. split; [done|]. split; [done|]. split; [done|].
  intros x Hx. by destruct (Hreq x Hx).
Qed.

(** X9: when the traversal ends, the starting map is processed or
    failed, and the settled maps are closed under the references of the
    community: every same-community reference the extractor reads from
    the file of a processed map is itself processed or failed. *)
Theorem traversal_reaches (origin : nat -> string -> option pdf)
    (fuel : nat) (starting_map : string) (w : world)
    (st : crawl_state) (w' : world) :
  crawl_loop origin fuel (community_prefix starting_map)
             (crawl_init starting_map w) = Some (st, w') ->
  (starting_map ∈ processed st \/ starting_map ∈ failed st)
  /\ forall p ref,
       p ∈ processed st ->
       ref ∈ extract_map_references (read_pdf w' p) p ->
       startswith ref (community_prefix starting_map +:+ "-") = true ->
       ref ∈ processed st \/ ref ∈ failed st.
Proof.
  intros E. destruct (crawl_loop_inv2 origin starting_map w fuel st w' E)
    as (Hq & [_ _ _ Hstart Hclosed _]).
  simpl in *. rewrite Hq in *. split.
  - destruct Hstart as [H|?]; [by apply elem_of_nil in H | done].
  - intros p ref Hp Href Hc.
    destruct (Hclosed p ref Hp Href Hc) as [H|?]; [by apply elem_of_nil in H | done].
Qed.

Lemma traversal_reaches_witness :
  exists st w',
    crawl_loop (origin_only "001-01" (Document [])) 5 (community_prefix "001-01")
               (crawl_init "001-01" empty_world) = Some (st, w')
    /\ ("001-01" ∈ processed st \/ "001-01" ∈ failed st).
Proof.
  assert (E : exists st w',
             crawl_loop (origin_only "001-01" (Document [])) 5
                        (community_prefix "001-01")
                        (crawl_init "001-01" empty_world) = Some (st, w'))
    by (eexists _, _; vm_compute; reflexivity).
  destruct E as (st & w' & E). exists st, w'. split; [exact E|].
  exact (proj1 (traversal_reaches _ _ _ _ _ _ E)).
Defined.

(** X10: a starting map that has no file and cannot be fetched ends the
    traversal at once: one failed request, no delay, and the report
    (0, 1). *)
Theorem traversal_start_unavailable (origin : nat -> string -> option pdf)
    (fuel : nat) (starting_map : string) (w : world) :
  store w !! starting_map = None ->
  origin (requests w) starting_map = None ->
  crawl_plat_maps origin (S fuel) starting_map w
  = Some ((0, 1)%nat,
          World (store w) (S (requests w))
                (trace w ++ [Request starting_map false])).
Proof.
  intros Hs Ho. unfold crawl_plat_maps, crawl_init. cbn [crawl_loop queue fst].
  destruct (crawl_step_cases origin (community_prefix starting_map)
              starting_map [] ∅ ∅ w)
    as [([H|H] & _)|[(_ & _ & _ & _ & ->)|(_ & _ & w1 & evs & Hd & _)]].
  - by apply elem_of_empty in H.
  - by apply elem_of_empty in H.
  - destruct fuel; cbn [crawl_loop queue fst snd processed failed];
      by rewrite union_empty_r_L, size_empty, size_singleton.
  - inversion Hd; congruence.
Qed.

Lemma traversal_start_unavailable_witness :
  crawl_plat_maps origin_down 1 "004-01" empty_world
  = Some ((0, 1)%nat, World ∅ 1 [Request "004-01" false]).
Proof.
  apply (traversal_start_unavailable origin_down O "004-01" empty_world);
    reflexivity.
Defined.

(** ** Running again on what is already stored *)

Section ClosedStore.

Variable origin : nat -> string -> option pdf.
Variables (starting_map : string) (w : world).

Hypothesis store_closed : closed_store (community_prefix starting_map) w.

Lemma closed_store_step c :
  (store c.2 = store w /\ requests c.2 = requests w /\ failed c.1 = ∅
   /\ forall x, x ∈ queue c.1 -> is_Some (store w !! x)) ->
  let c' := crawl_step origin (community_prefix starting_map) c in
  store c'.2 = store w /\ requests c'.2 = requests w /\ failed c'.1 = ∅
  /\ forall x, x ∈ queue c'.1 -> is_Some (store w !! x).
Proof.
  destruct c as [[[|cur rest] P F] w1]; [done|]. simpl.
  intros (Hst & Hrq & -> & Hq).
  destruct (crawl_step_cases origin (community_prefix starting_map) cur rest P ∅ w1)
    as [(Hskip & ->)|[(Hok & Hko & Hs & Ho & ->)|(Hok & Hko & w2 & evs & Hd & ->)]];
    simpl.
  - split; [done|]. split; [done|]. split; [done|].
    intros x Hx. apply Hq. by apply list_elem_of_further.
  - destruct (Hq cur) as [doc Hdoc]; [apply list_elem_of_here|]. congruence.
  - destruct (Hq cur) as [doc Hdoc]; [apply list_elem_of_here|].
    rewrite <- Hst in Hdoc.
    inversion Hd as [doc' Hdoc'| |]; subst; [|congruence].
    split; [done|]. split; [done|]. split; [done|].
    intros x Hx.
    destruct (enqueue_refs_added (community_prefix starting_map) ({[cur]} ∪ P) ∅
                (extract_map_references (read_pdf (sleep w2) cur) cur) rest)
      as (added & E & _ & Hadd).
    rewrite E in Hx. apply elem_of_app in Hx as [Hx|Hx].
    + apply Hq. by apply list_elem_of_further.
    + destruct (Hadd x Hx) as (Href & Hc & _).
      rewrite read_pdf_sleep in Href. unfold read_pdf in Href.
      rewrite Hdoc in Href. simpl in Href.
      rewrite Hst in Hdoc. by eapply store_closed.
Qed.

End ClosedStore.

(** X11: a traversal started on a store that already holds the starting
    map and every same-community reference of every stored map sends no
    request, records no failure and leaves the store as it is, at every
    point of the run. *)
Theorem traversal_on_closed_store (origin : nat -> string -> option pdf)
    (starting_map : string) (w : world) (n : nat) :
  closed_store (community_prefix starting_map) w ->
  is_Some (store w !! starting_map) ->
  let c := crawl_run origin starting_map w n in
  store c.2 = store w /\ requests c.2 = requests w /\ failed c.1 = ∅.
Proof.
  intros Hclosed Hstart c.
  assert (H : store c.2 = store w /\ requests c.2 = requests w
              /\ failed c.1 = ∅
              /\ forall x, x ∈ queue c.1 -> is_Some (store w !! x)).
  { unfold c, crawl_run. induction n as [|n IH]; simpl.
    - split; [done|]. split; [done|]. split; [done|].
      intros x Hx. apply list_elem_of_singleton in Hx. by subst.
    - by apply closed_store_step. }
  destruct H as (? & ? & ? & _). done.
Qed.

Lemma traversal_on_closed_store_witness :
  let w := World {["002-01" := Document [PageText "nothing"]]} 7 [] in
  requests (crawl_run origin_down "002-01" w 3).2 = 7%nat.
Proof.
  intros w.
  apply (traversal_on_closed_store origin_down "002-01" w 3).
  - intros map_id doc ref Hl Href _. unfold w in Hl. simpl in Hl.
    apply lookup_singleton_Some in Hl as [<- <-].
    vm_compute in Href. by apply elem_of_nil in Href.
  - unfold w. simpl. rewrite lookup_singleton_eq. by eexists.
Defined.

(** ** The systematic prober: stored maps and bounds *)

Section ProberProps.

Variable origin : nat -> string -> option pdf.
Variable prefix : string.

Lemma probe_loop_stored (indices : list Z) found_so_far failures w :
  (forall i, i ∈ indices -> is_Some (store w !! probe_id prefix i)) ->
  probe_loop origin prefix indices found_so_far failures w
  = (list_to_set (map (probe_id prefix) indices) ∪ found_so_far, w).
Proof.
  revert found_so_far failures.
  induction indices as [|i indices IH]; intros D cf Hall; simpl.
  - by rewrite union_empty_l_L.
  - destruct (Hall i) as [doc ->]; [apply list_elem_of_here|].
    rewrite IH; [|intros j Hj; by apply Hall, list_elem_of_further].
    f_equal. set_solver.
Qed.

Lemma probe_ids_NoDup (max_attempts : nat) :
  NoDup (map (probe_id prefix) (py_range max_attempts)).
Proof.
  apply (NoDup_fmap_2_strong (probe_id prefix)).
  - intros i j Hi Hj E. unfold py_range in Hi, Hj.
    apply list_elem_of_In, in_map_iff in Hi as (a & <- & _).
    apply list_elem_of_In, in_map_iff in Hj as (b & <- & _).
    by apply (proj2 (map_id_round_trip_aux prefix (Z.of_nat a) ltac:(lia))
                (Z.of_nat b) ltac:(lia)).
  - unfold py_range. apply (NoDup_fmap_2 Z.of_nat), NoDup_seq.
Qed.

End ProberProps.

(** X12: when the files of the maps 1..[max_attempts] of a community
    are all in the store, the prober discovers every one of them and
    does nothing else: no request, no delay, the world is unchanged. *)
Theorem prober_on_stored (origin : nat -> string -> option pdf)
    (prefix : string) (w : world) (max_attempts : nat) :
  (forall i, 1 <= i <= Z.of_nat max_attempts ->
             is_Some (store w !! probe_id prefix i)) ->
  systematic_discovery origin prefix w max_attempts
  = (list_to_set (map (probe_id prefix) (py_range max_attempts)), w).
Proof.
  intros H. unfold systematic_discovery.
  rewrite probe_loop_stored; [by rewrite union_empty_r_L|].
  intros i Hi. apply H. unfold py_range in Hi.
  apply list_elem_of_In, in_map_iff in Hi as (a & <- & Ha).
  apply in_seq in Ha. lia.
Qed.

Lemma prober_on_stored_witness :
  let w := World {["003-01" := Unreadable]} O [] in
  systematic_discovery origin_down "003" w 1
  = (list_to_set (map (probe_id "003") (py_range 1)), w).
Proof.
  intros w. apply (prober_on_stored origin_down "003" w 1).
  intros i Hi. assert (i = 1) as -> by lia.
  unfold w. simpl. change (probe_id "003" 1) with "003-01".
  rewrite lookup_singleton_eq. by eexists.
Defined.

(** X13: the prober discovers at most [max_attempts] maps; each of them
    is [prefix-NN] for a sequence number within 1..[max_attempts]; and
    it keeps every file of the store. *)
Theorem prober_bounds (origin : nat -> string -> option pdf)
    (prefix : string) (w : world) (max_attempts : nat) :
  let r := systematic_discovery origin prefix w max_attempts in
  (size r.1 <= max_attempts)%nat
  /\ (forall x, x ∈ r.1 ->
        exists i, 1 <= i <= Z.of_nat max_attempts /\ x = probe_id prefix i)
  /\ dom (store w) ⊆ dom (store r.2).
Proof.
  intros r. unfold r, systematic_discovery.
  destruct (probe_loop_trace origin prefix (py_range max_attempts) ∅ 0 w)
    as (evs & _ & _ & _ & Hgrow & Hd).
  assert (Hsub : (probe_loop origin prefix (py_range max_attempts) ∅ 0 w).1
                 ⊆ list_to_set (map (probe_id prefix) (py_range max_attempts))).
  { intros x Hx. destruct (Hd x Hx) as [H|[_ H]]; [by apply elem_of_empty in H|].
    by apply elem_of_list_to_set. }
  split; [|split; [|done]].
  - apply subseteq_size in Hsub.
    rewrite size_list_to_set in Hsub by apply probe_ids_NoDup.
    unfold py_range in Hsub. by rewrite !length_map, length_seq in Hsub.
  - intros x Hx. apply Hsub, elem_of_list_to_set in Hx.
    apply list_elem_of_In, in_map_iff in Hx as (i & <- & Hi).
    exists i. split; [|done]. unfold py_range in Hi.
    apply in_map_iff in Hi as (a & <- & Ha). apply in_seq in Ha. lia.
Qed.

(** ** The orchestrator and the driver *)

Section OrchestratorProps.

Variable origin : nat -> string -> option pdf.

Lemma crawl_plat_maps_terminates (starting_map : string) (w : world) :
  exists fuel r, forall more,
    crawl_plat_maps origin (fuel + more) starting_map w = Some r.
Proof.
  destruct universe_exists as [ids Hids].
  destruct (crawl_loop_terminates origin starting_map w ids Hids
              (size ({[starting_map]} ∪ ids)) (crawl_init starting_map w))
    as ([st w'] & Hloop & _ & _); [by apply crawl_inv_init | lia |].
  exists (size ({[starting_map]} ∪ ids)),
         ((size (processed st), size (failed st)), w').
  intros more. unfold crawl_plat_maps.
  by rewrite (crawl_loop_more _ _ _ _ _ _ Hloop).
Qed.

Lemma hybrid_terminates (starting_map : string) (w : world) :
  exists fuel r, forall more,
    hybrid_crawl_community origin (fuel + more) starting_map w = Some r.
Proof.
  destruct (crawl_plat_maps_terminates starting_map w)
    as (fuel & [[p1 f1] w1] & Hrun).
  destruct (systematic_discovery origin (community_prefix starting_map) w1
              default_max_attempts) as [D w2] eqn:E2.
  destruct (phase4 origin
              (phase3 (community_prefix starting_map) w2 (elements D)) O O w2)
    as [[ap af] w3] eqn:E4.
  exists fuel, ((p1 + size D + ap, f1 + af)%nat, w3). intros more.
  unfold hybrid_crawl_community. by rewrite Hrun, E2, E4.
Qed.

Lemma crawl_communities_terminates (starting_maps : list string) :
  forall total_processed total_failed w,
  exists fuel r, forall more,
    crawl_communities origin (fuel + more) starting_maps
                      total_processed total_failed w = Some r.
Proof.
  induction starting_maps as [|starting_map rest IH]; intros tp tf w.
  - exists O, ((tp, tf), w). done.
  - destruct (hybrid_terminates starting_map w) as (f1 & [[p f] w'] & H1).
    destruct (IH (tp + p)%nat (tf + f)%nat w') as (f2 & r & H2).
    exists (f1 + f2)%nat, r. intros more. cbn [crawl_communities].
    replace (f1 + f2 + more)%nat with (f1 + (f2 + more))%nat by lia.
    rewrite H1.
    replace (f1 + (f2 + more))%nat with (f2 + (f1 + more))%nat by lia.
    apply H2.
Qed.

(** The processed set only grows. *)
Lemma crawl_step_processed (prefix : string) c :
  processed c.1 ⊆ processed (crawl_step origin prefix c).1.
Proof.
  destruct c as [[[|cur rest] P F] w]; [done|].
  destruct (crawl_step_cases origin prefix cur rest P F w)
    as [(_ & ->)|[(_ & _ & _ & _ & ->)|(_ & _ & w1 & evs & _ & ->)]];
    simpl; set_solver.
Qed.

Lemma crawl_iter_processed (prefix : string) (n : nat) c :
  processed c.1 ⊆ processed (Nat.iter n (crawl_step origin prefix) c).1.
Proof.
  induction n as [|n IH]; simpl; [done|].
  etrans; [exact IH | apply crawl_step_processed].
Qed.

(** A starting map that can be had is processed in the first turn and
    stays processed. *)
Lemma crawl_start_processed (fuel : nat) (starting_map : string) (w : world)
    (st : crawl_state) (w' : world) :
  is_Some (store w !! starting_map)
  \/ is_Some (origin (requests w) starting_map) ->
  crawl_loop origin fuel (community_prefix starting_map)
             (crawl_init starting_map w) = Some (st, w') ->
  starting_map ∈ processed st.
Proof.
  intros Hav E. destruct (crawl_loop_run _ _ _ _ _ E) as (Hq & n & Hn).
  destruct n as [|n]; [by rewrite Hn in Hq|].
  rewrite Nat.iter_succ_r in Hn.
  assert (H1 : starting_map
               ∈ processed (crawl_step origin (community_prefix starting_map)
                              (crawl_init starting_map w)).1).
  { unfold crawl_init.
    destruct (crawl_step_cases origin (community_prefix starting_map)
                starting_map [] ∅ ∅ w)
      as [([H|H] & _)|[(_ & _ & Hs & Ho & _)|(_ & _ & w1 & evs & _ & ->)]].
    - by apply elem_of_empty in H.
    - by apply elem_of_empty in H.
    - rewrite Hs, Ho in Hav. by destruct Hav as [[? ?]|[? ?]].
    - simpl. set_solver. }
  apply (crawl_iter_processed (community_prefix starting_map) n) in H1.
  by rewrite <- Hn in H1.
Qed.

Lemma probe_loop_mono (prefix : string) (indices : list Z)
    found_so_far failures w :
  found_so_far ⊆ (probe_loop origin prefix indices found_so_far failures w).1.
Proof.
  revert found_so_far failures w.
  induction indices as [|i indices IH]; intros D cf w; simpl; [done|].
  destruct (store w !! probe_id prefix i).
  - etrans; [|apply IH]. set_solver.
  - destruct (download_pdf origin (probe_id prefix i) w) as [[] w1].
    + etrans; [|apply IH]. set_solver.
    + destruct (max_consecutive_failures <=? cf + 1); [done | apply IH].
Qed.

(** A stored first map is always discovered. *)
Lemma probe_first_stored (prefix : string) (w : world) (max_attempts : nat) :
  (0 < max_attempts)%nat ->
  is_Some (store w !! probe_id prefix 1) ->
  probe_id prefix 1 ∈ (systematic_discovery origin prefix w max_attempts).1.
Proof.
  intros Hmax [doc Hdoc]. destruct max_attempts as [|m]; [lia|].
  unfold systematic_discovery, py_range. cbn [seq map].
  change (Z.of_nat 1) with 1. cbn [probe_loop]. rewrite Hdoc.
  apply probe_loop_mono. set_solver.
Qed.

End OrchestratorProps.

(** X14: the whole run over the six starting maps terminates, for every
    initial store and every behaviour of the origin: once the traversals
    are given enough turns it returns its totals, and a larger bound
    gives the same result. *)
Theorem crawl_all_communities_terminates
    (origin : nat -> string -> option pdf) (w : world) :
  exists fuel r, forall more,
    crawl_all_communities origin (fuel + more) w = Some r.
Proof. apply crawl_communities_terminates. Qed.

(** X15: the totals count a map more than once.  When the starting map
    is the first map of its community ([prefix-01]) and can be had, the
    traversal counts it as processed and the prober counts it again as
    discovered: the processed total is at least 2 for this one file. *)
Theorem hybrid_counts_start_twice (origin : nat -> string -> option pdf)
    (fuel : nat) (starting_map : string) (w : world)
    (total_processed total_failed : nat) (w' : world) :
  starting_map = probe_id (community_prefix starting_map) 1 ->
  is_Some (store w !! starting_map)
  \/ is_Some (origin (requests w) starting_map) ->
  hybrid_crawl_community origin fuel starting_map w
  = Some ((total_processed, total_failed), w') ->
  (2 <= total_processed)%nat.
Proof.
  intros Hid Hav. unfold hybrid_crawl_community, crawl_plat_maps.
  destruct (crawl_loop origin fuel (community_prefix starting_map)
              (crawl_init starting_map w)) as [[st w1]|] eqn:E1; [|done].
  pose proof (crawl_start_processed origin fuel starting_map w st w1 Hav E1)
    as Hp.
  assert (Hstored : is_Some (store w1 !! starting_map)).
  { destruct universe_exists as [ids Hids].
    destruct (crawl_loop_run _ _ _ _ _ E1) as (_ & n & Hn).
    destruct (crawl_inv_run origin starting_map w ids Hids n)
      as [_ _ _ Hst _ _].
    unfold crawl_run in Hst. rewrite <- Hn in Hst. simpl in Hst.
    by apply elem_of_dom, Hst. }
  destruct (systematic_discovery origin (community_prefix starting_map) w1
              default_max_attempts) as [D w2] eqn:E2.
  destruct (phase4 _ _ _ _ w2) as [[ap af] w3].
  intros [= <- <- <-].
  assert (HD : starting_map ∈ D).
  { pose proof (probe_first_stored origin (community_prefix starting_map) w1
                  default_max_attempts) as H1.
    rewrite E2, <- Hid in H1. apply H1; [|done].
    unfold default_max_attempts. lia. }
  assert (1 <= size (processed st))%nat.
  { assert (Hs : ({[starting_map]} : gset string) ⊆ processed st)
      by set_solver.
    apply subseteq_size in Hs. by rewrite size_singleton in Hs. }
  assert (1 <= size D)%nat.
  { assert (Hs : ({[starting_map]} : gset string) ⊆ D) by set_solver.
    apply subseteq_size in Hs. by rewrite size_singleton in Hs. }
  lia.
Qed.

Lemma hybrid_counts_start_twice_witness :
  exists w',
    hybrid_crawl_community (origin_only "002-01" (Document [])) 5 "002-01"
                           empty_world
    = Some ((2, 0)%nat, w')
    /\ (2 <= 2)%nat.
Proof.
  assert (E : exists w',
             hybrid_crawl_community (origin_only "002-01" (Document [])) 5
                                    "002-01" empty_world
             = Some ((2, 0)%nat, w')) by (eexists; vm_compute; reflexivity).
  destruct E as [w' E]. exists w'. split; [exact E|].
  apply (hybrid_counts_start_twice (origin_only "002-01" (Document [])) 5
           "002-01" empty_world 2 0 w'); [reflexivity | | exact E].
  right. by eexists.
Defined.

(** ** The summary of [main] *)

Section SummaryProps.

(** The maps of one community among the stored files, in their order. *)
Let of_prefix (p : string) (stems : list string) : list string :=
  filter (fun stem => community_prefix stem = p) stems.

Lemma add_to_communities_lookup (m : gmap string (list string))
    (stem p : string) :
  add_to_communities m stem !! p
  = if decide (community_prefix stem = p)
    then Some (default [] (m !! p) ++ [stem])%list
    else m !! p.
Proof.
  unfold add_to_communities.
  destruct (decide (community_prefix stem = p)) as [->|Hne].
  - destruct (m !! p) as [l|] eqn:E.
    + by rewrite lookup_alter_eq, E.
    + by rewrite lookup_alter_eq, lookup_insert_eq.
  - rewrite lookup_alter_ne by done.
    destruct (m !! community_prefix stem); [done|].
    by rewrite lookup_insert_ne.
Qed.

Lemma fold_communities_lookup (stems : list string)
    (m : gmap string (list string)) (p : string) :
  fold_left add_to_communities stems m !! p
  = match m !! p, of_prefix p stems with
    | None, [] => None
    | o, l => Some (default [] o ++ l)%list
    end.
Proof.
  revert m. induction stems as [|stem stems IH]; intros m; simpl.
  - destruct (m !! p); simpl; [by rewrite app_nil_r | done].
  - rewrite IH, add_to_communities_lookup. unfold of_prefix.
    destruct (decide (community_prefix stem = p)) as [E|Hne].
    + rewrite filter_cons_True by done. simpl.
      rewrite <- app_assoc. simpl. by destruct (m !! p).
    + by rewrite filter_cons_False by done.
Qed.

Lemma group_lookup (stems : list string) (p : string) :
  group_by_community stems !! p
  = match of_prefix p stems with [] => None | l => Some l end.
Proof.
  unfold group_by_community. rewrite fold_communities_lookup, lookup_empty.
  by destruct (of_prefix p stems).
Qed.

(** Over distinct keys that hold [k], exactly one of them is [k]. *)
Lemma sum_indicator (k : string) (ks : list string) :
  NoDup ks -> k ∈ ks ->
  sum_list (map (fun p => if decide (k = p) then 1%nat else O) ks) = 1%nat.
Proof.
  induction 1 as [|p ks Hp Hnd IH]; intros Hin.
  - by apply elem_of_nil in Hin.
  - simpl. destruct (decide (k = p)) as [->|Hne].
    + assert (sum_list (map (fun q => if decide (p = q) then 1%nat else O) ks) = O)
        as ->; [|done].
      clear IH Hin. induction ks as [|q ks IHk]; simpl; [done|].
      apply not_elem_of_cons in Hp as [Hq Hp]. apply NoDup_cons in Hnd as [_ Hnd].
      rewrite decide_False by done. by apply IHk.
    + apply elem_of_cons in Hin as [?|Hin]; [done|]. by rewrite IH.
Qed.

Lemma sum_of_groups (stems ks : list string) :
  NoDup ks ->
  (forall stem, stem ∈ stems -> community_prefix stem ∈ ks) ->
  sum_list (map (fun p => length (of_prefix p stems)) ks) = length stems.
Proof.
  intros Hnd. induction stems as [|stem stems IH]; intros Hall.
  - clear. induction ks as [|p ks IHk]; simpl; [done|]. exact IHk.
  - assert (Hsplit :
      sum_list (map (fun p => length (of_prefix p (stem :: stems))) ks)
      = (sum_list (map (fun p => if decide (community_prefix stem = p)
                                 then 1%nat else O) ks)
         + sum_list (map (fun p => length (of_prefix p stems)) ks))%nat).
    { clear. induction ks as [|p ks IHk]; simpl; [done|].
      rewrite IHk. unfold of_prefix.
      destruct (decide (community_prefix stem = p)) as [E|Hne].
      - rewrite filter_cons_True by done. simpl. lia.
      - rewrite filter_cons_False by done. lia. }
    rewrite Hsplit, IH by (intros s Hs; by apply Hall, list_elem_of_further).
    rewrite (sum_indicator (community_prefix stem) ks Hnd)
      by apply Hall, list_elem_of_here.
    done.
Qed.

End SummaryProps.

(** X16: the summary of [main] groups the stored maps by the text before
    their first dash: each community that has a file gets exactly its
    files, in their order, and no other community gets an entry; the
    lines come in ascending order of the prefixes, each with the number
    of files of its community, never 0; and these numbers add up to the
    number of files. *)
Theorem summary_of_main (stems : list string) :
  (forall p maps,
      group_by_community stems !! p = Some maps <->
      maps = filter (fun stem => community_prefix stem = p) stems
      /\ maps <> [])
  /\ ascending (map fst (summary stems))
  /\ (forall p k,
        (p, k) ∈ summary stems <->
        k = length (filter (fun stem => community_prefix stem = p) stems)
        /\ k <> O)
  /\ sum_list (map snd (summary stems)) = length stems.
Proof.
  assert (Hkeys : forall p, p ∈ py_sort (elements (dom (group_by_community stems)))
                  <-> filter (fun stem => community_prefix stem = p) stems <> []).
  { intros p. rewrite py_sort_elem, elem_of_elements, elem_of_dom, group_lookup.
    destruct (filter _ stems) as [|s l].
    - split; [by intros [? ?] | done].
    - split; [done | intros _; by eexists]. }
  assert (Hlen : forall p, length (default [] (group_by_community stems !! p))
                 = length (filter (fun stem => community_prefix stem = p) stems)).
  { intros p. rewrite group_lookup. by destruct (filter _ stems). }
  split; [|split; [|split]].
  - intros p maps. rewrite group_lookup.
    destruct (filter _ stems) as [|s l]; split.
    + done.
    + by intros [-> ?].
    + intros [= <-]. done.
    + by intros [-> _].
  - unfold summary. rewrite map_map. simpl. rewrite map_id.
    apply py_sort_ascending, NoDup_elements.
  - intros p k. unfold summary. rewrite list_elem_of_fmap. split.
    + intros (q & [= -> ->] & Hq). rewrite Hlen. split; [done|].
      apply Hkeys in Hq. by destruct (filter _ stems).
    + intros [-> Hk]. exists p. rewrite Hlen. split; [done|].
      apply Hkeys. by destruct (filter _ stems).
  - unfold summary. rewrite map_map. simpl.
    rewrite (map_ext _ (fun p => length (filter (fun stem => community_prefix stem = p) stems)))
      by (intros p; apply Hlen).
    apply sum_of_groups.
    + apply ascending_NoDup, py_sort_ascending, NoDup_elements.
    + intros stem Hs. apply Hkeys.
      intros E. assert (Hin : stem ∈ filter (fun s => community_prefix s = community_prefix stem) stems)
        by (by apply list_elem_of_filter).
      rewrite E in Hin. by apply elem_of_nil in Hin.
Qed.

(** ** The report of a traversal and the last phase *)

Section ReportProps.

Variable origin : nat -> string -> option pdf.

Lemma crawl_step_files (prefix : string) (w0 : world) c :
  dom (store c.2) ⊆ dom (store w0) ∪ processed c.1 ->
  let c' := crawl_step origin prefix c in
  dom (store c'.2) ⊆ dom (store w0) ∪ processed c'.1.
Proof.
  destruct c as [[[|cur rest] P F] w]; [done|]. simpl. intros H.
  destruct (crawl_step_cases origin prefix cur rest P F w)
    as [(_ & ->)|[(_ & _ & _ & _ & ->)|(_ & _ & w1 & evs & Hd & ->)]];
    simpl; [done|done|].
  inversion Hd; subst; simpl; [set_solver|].
  rewrite dom_insert_L. set_solver.
Qed.

Lemma crawl_run_files (starting_map : string) (w : world) (n : nat) :
  dom (store (crawl_run origin starting_map w n).2)
  ⊆ dom (store w) ∪ processed (crawl_run origin starting_map w n).1.
Proof.
  unfold crawl_run. induction n as [|n IH]; simpl; [set_solver|].
  by apply crawl_step_files.
Qed.

Lemma events_since_app (w w' : world) (evs : list event) :
  trace w' = (trace w ++ evs)%list -> events_since w w' = evs.
Proof. intros E. unfold events_since. by rewrite E, drop_app_length. Qed.

(** Phase 4 makes one attempt and one delay per entry of its list. *)
Lemma phase4_trace (refs : list string) (ap af : nat) (w : world) :
  let r := phase4 origin refs ap af w in
  exists evs,
    trace r.2 = (trace w ++ evs)%list
    /\ (r.1.1 + r.1.2 = ap + af + length refs)%nat
    /\ r.1.2 = (af + count_failures evs)%nat
    /\ count_sleeps evs = length refs
    /\ (count_requests evs <= length refs)%nat
    /\ each_request_delayed evs = true
    /\ dom (store w) ⊆ dom (store r.2).
Proof.
  revert ap af w. induction refs as [|ref refs IH]; intros ap af w; simpl.
  - exists []. rewrite app_nil_r. change (count_failures []) with O.
    split; [done|]. split; [lia|]. split; [lia|]. done.
  - destruct (download_pdf_outcome origin ref w) as [evs0 Hd].
    pose proof (download_outcome_trace _ _ _ _ _ _ Hd) as Ht0.
    pose proof (download_outcome_failures _ _ _ _ _ _ Hd) as Hf0.
    pose proof (download_outcome_grows _ _ _ _ _ _ Hd) as Hg0.
    assert (Hshape : forall evs,
              count_sleeps (evs0 ++ Sleep :: evs) = S (count_sleeps evs)
              /\ (count_requests (evs0 ++ Sleep :: evs) <= S (count_requests evs))%nat
              /\ each_request_delayed (evs0 ++ Sleep :: evs)
                 = each_request_delayed evs).
    { intros evs.
      destruct (download_outcome_events _ _ _ _ _ _ Hd) as [->| ->].
      - assert (count_sleeps ([] ++ Sleep :: evs) = S (count_sleeps evs)) as ->
          by reflexivity.
        assert (count_requests ([] ++ Sleep :: evs) = count_requests evs) as ->
          by reflexivity.
        split; [done|]. split; [lia|done].
      - set (e := Request ref _).
        assert (count_sleeps ([e] ++ Sleep :: evs) = S (count_sleeps evs)) as ->
          by reflexivity.
        assert (count_requests ([e] ++ Sleep :: evs) = S (count_requests evs))
          as -> by reflexivity.
        split; [done|]. split; [lia|done]. }
    destruct (download_pdf origin ref w) as [[] w1]; simpl in *.
    + destruct (IH (S ap) af (sleep w1))
        as (evs & Ht & Hsum & Hf & Hsl & Hrq & Hdl & Hg).
      exists (evs0 ++ Sleep :: evs)%list. destruct (Hshape evs) as (-> & ? & ->).
      rewrite Ht. simpl. rewrite Ht0, <- !app_assoc.
      split; [done|]. split; [lia|].
      rewrite Hf, count_failures_app, Hf0, count_failures_sleep.
      split; [lia|]. split; [lia|]. split; [lia|]. split; [done|].
      etrans; [exact Hg0 | exact Hg].
    + destruct (IH ap (S af) (sleep w1))
        as (evs & Ht & Hsum & Hf & Hsl & Hrq & Hdl & Hg).
      exists (evs0 ++ Sleep :: evs)%list. destruct (Hshape evs) as (-> & ? & ->).
      rewrite Ht. simpl. rewrite Ht0, <- !app_assoc.
      split; [done|]. split; [lia|].
      rewrite Hf, count_failures_app, Hf0, count_failures_sleep.
      split; [lia|]. split; [lia|]. split; [lia|]. split; [done|].
      etrans; [exact Hg0 | exact Hg].
Qed.

End ReportProps.

(** X17: at every point of a traversal the files in the store are
    exactly the files it started with and the files of the processed
    maps. *)
Theorem traversal_files (origin : nat -> string -> option pdf)
    (starting_map : string) (w : world) (n : nat) :
  let c := crawl_run origin starting_map w n in
  dom (store c.2) = dom (store w) ∪ processed c.1.
Proof.
  intros c. apply set_eq. intros x. split.
  - apply crawl_run_files.
  - destruct universe_exists as [ids Hids].
    destruct (crawl_inv_run origin starting_map w ids Hids n)
      as [_ _ _ Hst _ _].
    destruct (crawl_inv2_run origin starting_map w n) as [_ Hkept _ _ _ _].
    rewrite elem_of_union. intros [Hx|Hx]; [|by apply Hst].
    apply elem_of_dom in Hx as [doc Hdoc]. apply elem_of_dom.
    exists doc. by apply Hkept.
Qed.

(** X18: the report of a traversal against what it did: the two counts
    are never both 0; the processed count is the number of delays, the
    failed count is the number of failed requests, and their sum bounds
    the number of requests; the store holds at most as many new files as
    maps were processed. *)
Theorem traversal_report (origin : nat -> string -> option pdf) (fuel : nat)
    (starting_map : string) (w : world)
    (processed_count failed_count : nat) (w' : world) :
  crawl_plat_maps origin fuel starting_map w
  = Some ((processed_count, failed_count), w') ->
  (1 <= processed_count + failed_count)%nat
  /\ count_sleeps (events_since w w') = processed_count
  /\ count_failures (events_since w w') = failed_count
  /\ (count_requests (events_since w w') <= processed_count + failed_count)%nat
  /\ (size (dom (store w')) <= size (dom (store w)) + processed_count)%nat.
Proof.
  unfold crawl_plat_maps.
  destruct (crawl_loop _ _ _ _) as [[st w1]|] eqn:E; [|done].
  intros [= <- <- <-].
  destruct (crawl_loop_run _ _ _ _ _ E) as (Hq & n & Hn). simpl in Hq.
  destruct universe_exists as [ids Hids].
  pose proof (crawl_inv_run origin starting_map w ids Hids n) as Hinv.
  pose proof (crawl_inv2_run origin starting_map w n) as Hinv2.
  pose proof (crawl_run_files origin starting_map w n) as Hfiles.
  unfold crawl_run in Hinv, Hinv2, Hfiles. rewrite <- Hn in Hinv, Hinv2, Hfiles.
  destruct Hinv as [_ Hdis _ _ _ (evs & Ht & Hcf & _)].
  destruct Hinv2 as [_ _ _ Hstart _ (evs' & Ht' & Hsl & Hrq & _)].
  simpl in *. rewrite Ht in Ht'. apply app_inv_head in Ht'. subst evs'.
  rewrite (events_since_app w w1 evs Ht).
  split; [|split; [done|split; [done|split; [done|]]]].
  - rewrite Hq in Hstart. destruct Hstart as [H|[H|H]].
    + by apply elem_of_nil in H.
    + assert (Hs : ({[starting_map]} : gset string) ⊆ processed st) by set_solver.
      apply subseteq_size in Hs. rewrite size_singleton in Hs. lia.
    + assert (Hs : ({[starting_map]} : gset string) ⊆ failed st) by set_solver.
      apply subseteq_size in Hs. rewrite size_singleton in Hs. lia.
  - apply subseteq_size in Hfiles.
    pose proof (size_union_alt (dom (store w)) (processed st)) as Hu.
    pose proof (subseteq_size (processed st ∖ dom (store w)) (processed st)
                  ltac:(set_solver)).
    lia.
Qed.

Lemma traversal_report_witness :
  exists w',
    crawl_plat_maps (origin_only "001-01" (Document [])) 5 "001-01" empty_world
    = Some ((1, 2)%nat, w')
    /\ count_sleeps (events_since empty_world w') = 1%nat.
Proof.
  assert (E : exists w',
             crawl_plat_maps (origin_only "001-01" (Document [])) 5 "001-01"
                             empty_world
             = Some ((1, 2)%nat, w')) by (eexists; vm_compute; reflexivity).
  destruct E as [w' E]. exists w'. split; [exact E|].
  exact (proj1 (proj2 (traversal_report _ _ _ _ _ _ _ E))).
Defined.

(** X19: the last phase of the orchestrator makes one attempt and one
    delay per entry of its list, repeated entries included: the two
    counters grow by the length of the list in all, the failure counter
    by the number of failed requests; at most one request is sent per
    entry, every request, the last one included, is immediately followed
    by a delay, and no file is lost. *)
Theorem phase4_accounting (origin : nat -> string -> option pdf)
    (refs : list string) (w : world) :
  let r := phase4 origin refs O O w in
  exists evs,
    trace r.2 = (trace w ++ evs)%list
    /\ (r.1.1 + r.1.2 = length refs)%nat
    /\ r.1.2 = count_failures evs
    /\ count_sleeps evs = length refs
    /\ (count_requests evs <= length refs)%nat
    /\ each_request_delayed evs = true
    /\ dom (store w) ⊆ dom (store r.2).
Proof.
  intros r. destruct (phase4_trace origin refs O O w)
    as (evs & Ht & Hsum & Hf & Hsl & Hrq & Hdl & Hg).
  exists evs. fold r in Ht, Hsum, Hf, Hg.
  split; [done|]. split; [lia|]. split; [lia|]. done.
Qed.
